(** * Hydrogel chemical-diffusion simulation (conduction.py)

    A shallow embedding of the finite-difference relaxation program:
    the grid initialiser, the in-place (Gauss-Seidel) relaxation loop, the
    sampler at the four probe points and the sweep driver.  The field holds
    IEEE binary64 numbers, as numpy's default dtype does; they are Rocq's
    primitive floats.  An [IndexError] of the source is [None] here. *)

From Stdlib Require Import ZArith List Lia Floats Uint63 Bool Zpower.
From Stdlib Require Strings.String Numbers.DecimalString Numbers.DecimalZ Numbers.DecimalPos.
From stdpp Require Import base option list.
Import String.StringSyntax.

Set Warnings "-inexact-float".
Open Scope Z_scope.

(** ** Python helpers *)

(** [range(start, stop, step)] for a positive [step]; Python raises
    [ValueError] at step zero, which is [None] here.  A negative step counts
    down. *)
Fixpoint range_up (fuel : nat) (start step : Z) : list Z :=
  match fuel with
  | O => []
  | S k => start :: range_up k (start + step) step
  end.

Definition py_range (start stop step : Z) : option (list Z) :=
  if step =? 0 then None
  else if 0 <? step
       then Some (range_up (Z.to_nat ((stop - start + step - 1) / step)) start step)
       else Some (range_up (Z.to_nat ((start - stop - step - 1) / (- step))) start step).

(** Index ranges of the relaxation loops: [range(lo, hi, 1)] over
    non-negative bounds. *)
Definition irange (lo hi : nat) : list nat := seq lo (hi - lo).

(** [int(x)] on a float: truncation toward zero; Python raises on an
    infinity or a NaN. *)
Definition py_int (x : float) : option Z :=
  match Prim2SF x with
  | S754_zero _ => Some 0
  | S754_finite s m e =>
      let a := if 0 <=? e then Z.pos m * 2 ^ e else Z.pos m / 2 ^ (- e) in
      Some (if s then - a else a)
  | _ => None
  end.

(** Python's true division of floats raises [ZeroDivisionError] at a zero
    divisor (of either sign). *)
Definition py_div (x y : float) : option float :=
  if PrimFloat.eqb y 0%float then None else Some (x / y)%float.

Definition float_of_nat (n : nat) : float :=
  PrimFloat.of_uint63 (Uint63.of_Z (Z.of_nat n)).

(** ** The field *)

Abbreviation Field := (list (list float)).

(** [T[i][j]], an [IndexError] being [None]; the indices of the program are
    never negative. *)
Definition get (T : Field) (i j : nat) : option float :=
  T !! i ≫= fun row => row !! j.

(** [T[i, j] = v] *)
Definition set (T : Field) (i j : nat) (v : float) : option Field :=
  row ← T !! i;
  _ ← row !! j;
  Some (<[i := <[j := v]> row]> T).

(** [T = np.empty((lenX, lenY)); T.fill(Tguess)] *)
Definition fill (lenX lenY : nat) (v : float) : Field :=
  replicate lenX (replicate lenY v).

(** [T[r:, :] = v] *)
Definition set_rows_from (r : nat) (v : float) (T : Field) : Field :=
  imap (fun i row => if (r <=? i)%nat then (fun _ => v) <$> row else row) T.

(** [T[:r, :] = v] *)
Definition set_rows_upto (r : nat) (v : float) (T : Field) : Field :=
  imap (fun i row => if (i <? r)%nat then (fun _ => v) <$> row else row) T.

(** [T[:, c:] = v] *)
Definition set_cols_from (c : nat) (v : float) (T : Field) : Field :=
  imap (fun j x => if (c <=? j)%nat then v else x) <$> T.

(** [T[:, :c] = v] *)
Definition set_cols_upto (c : nat) (v : float) (T : Field) : Field :=
  imap (fun j x => if (j <? c)%nat then v else x) <$> T.

(** ** Configuration: the constants of the source *)

Record Config := {
  start : Z; end_ : Z; d : Z;
  lenX : nat;
  Ttop : float; Tbottom : float; Tleft : float; Tright : float;
  Tguess : float
}.

(** [lenX = lenY = 60] *)
Definition lenY (c : Config) : nat := lenX c.

Definition reference : Config :=
  {| start := 0; end_ := 500; d := 20; lenX := 60;
     Ttop := 100; Tbottom := 0; Tleft := 100; Tright := 100; Tguess := 0 |}.

(** ** Grid initialiser (lines 111-118) *)

Definition init (c : Config) : Field :=
  let T := fill (lenX c) (lenY c) (Tguess c) in
  let T := set_rows_from (lenY c - 1) (Ttop c) T in
  let T := set_rows_upto 1 (Tbottom c) T in
  let T := set_cols_from (lenX c - 1) (Tright c) T in
  set_cols_upto 1 (Tleft c) T.

(** ** Relaxation solver (lines 121-124) *)

(** [0.25 * (a + b + c + d)], the sum associating to the left *)
Definition avg4 (a b c d : float) : float :=
  (0.25 * (a + b + c + d))%float.

(** [T[i, j] = 0.25 * (T[i+1][j] + T[i-1][j] + T[i][j+1] + T[i][j-1])] *)
Definition relax (T : Field) (i j : nat) : option Field :=
  a ← get T (i + 1) j;
  b ← get T (i - 1) j;
  c ← get T i (j + 1);
  d ← get T i (j - 1);
  set T i j (avg4 a b c d).

(** A [for] loop whose body may raise *)
Fixpoint for_each {A S : Type} (xs : list A) (body : S -> A -> option S) (s : S)
  : option S :=
  match xs with
  | [] => Some s
  | x :: xs' => s' ← body s x; for_each xs' body s'
  end.

Definition sweep_row (lY : nat) (T : Field) (i : nat) : option Field :=
  for_each (irange 1 (lY - 1)) (fun T j => relax T i j) T.

Definition sweep (lX lY : nat) (T : Field) : option Field :=
  for_each (irange 1 (lX - 1)) (sweep_row lY) T.

(** [for iteration in range(0, maxIter)]: no sweep at all for a negative
    [maxIter] *)
Definition solve (lX lY : nat) (maxIter : Z) (T : Field) : option Field :=
  for_each (irange 0 (Z.to_nat maxIter)) (fun T _ => sweep lX lY T) T.

(** ** Sampler (lines 82-89 and 138) *)

Record Positions := {
  wormA_x : Z; wormA_y : Z; wormB_x : Z; wormB_y : Z;
  wormC_x : Z; wormC_y : Z; wormD_x : Z; wormD_y : Z
}.

Definition positions (c : Config) : option Positions :=
  let lx := float_of_nat (lenX c) in
  let ly := float_of_nat (lenY c) in
  ax ← py_int (lx / 2 - 0.416 * ly)%float;
  ay ← py_int (ly / 2)%float;
  bx ← py_int (lx / 2)%float;
  by_ ← py_int (ly / 2 + 0.416 * ly)%float;
  cx ← py_int (lx / 2 + 0.416 * ly)%float;
  cy ← py_int (ly / 2)%float;
  dx ← py_int (lx / 2)%float;
  dy ← py_int (ly / 2 - 0.416 * ly)%float;
  Some {| wormA_x := ax; wormA_y := ay; wormB_x := bx; wormB_y := by_;
          wormC_x := cx; wormC_y := cy; wormD_x := dx; wormD_y := dy |}.

(** [T[y, x]] with numpy's wrap-around of a negative index *)
Definition index (len : nat) (k : Z) : option nat :=
  if (0 <=? k) && (k <? Z.of_nat len) then Some (Z.to_nat k)
  else if (- Z.of_nat len <=? k) && (k <? 0) then Some (Z.to_nat (k + Z.of_nat len))
  else None.

Definition at_ (T : Field) (y x : Z) : option float :=
  i ← index (length T) y;
  row ← T !! i;
  j ← index (length row) x;
  row !! j.

Definition sample (T : Field) (p : Positions) : option (list float) :=
  a ← at_ T (wormA_y p) (wormA_x p);
  b ← at_ T (wormB_y p) (wormB_x p);
  c ← at_ T (wormC_y p) (wormC_x p);
  d ← at_ T (wormD_y p) (wormD_x p);
  Some [a; b; c; d].

(** The samples of count [n]: a fresh field, [n] sweeps, the four cells. *)
Definition concentrations (c : Config) (n : Z) : option (list float) :=
  p ← positions c;
  T ← solve (lenX c) (lenY c) n (init c);
  sample T p.

(** ** Sweep driver (lines 49-70 and 127-153) *)

(** The hydrogel parameters at the top of the program *)
Record Hydrogel := {
  Et : float; drug_size : float; pore_size : float; tor : float;
  diffusivity_NO : float; diffusivity_EtOH : float; diffusivity_CO2 : float;
  diffusivity_N2 : float; diffusivity_acetone : float
}.

Definition hydrogel : Hydrogel :=
  {| Et := 0.2; drug_size := 4.5e-7; pore_size := 9.5e-6; tor := 2.2;
     diffusivity_NO := 2.6e-5; diffusivity_EtOH := 0.84e-5;
     diffusivity_CO2 := 1.92e-5; diffusivity_N2 := 1.88e-5;
     diffusivity_acetone := 1.16e-5 |}.

(** [de = drug_size/pore_size] *)
Definition de (h : Hydrogel) : option float := py_div (drug_size h) (pore_size h).

(** What the program writes: one image per step, the table once. *)
Inductive Event :=
| SaveFig (n : Z)
| SaveTxt (rows : list (Z * list float)).

Record State := { data : list (Z * list float); files : list Event }.

(** The body of [for n in range(start,end+1,d)]: the sample points, a fresh
    field, [n] sweeps, the plot of the field, the samples, the image, the
    row.  [plot] stands for the plotting calls on the relaxed field
    ([plt.title], [plt.contourf] and [plt.colorbar], lines 130-134):
    matplotlib draws the field or raises, before the samples are read at
    line 138. *)
Definition step (plot : Field -> option unit) (c : Config) (s : State) (n : Z)
  : option State :=
  p ← positions c;
  T ← solve (lenX c) (lenY c) n (init c);
  _ ← plot T;
  conc ← sample T p;
  Some {| data := data s ++ [(n, conc)]; files := files s ++ [SaveFig n] |}.

Definition program (plot : Field -> option unit) (h : Hydrogel) (c : Config)
  : option State :=
  _ ← de h;
  ns ← py_range (start c) (end_ c + 1) (d c);
  s ← for_each ns (step plot c) {| data := []; files := [] |};
  Some {| data := data s; files := files s ++ [SaveTxt (data s)] |}.

(** * Specification vocabulary *)

(** ** Shape of a field and what one write does *)

Definition shaped (n m : nat) (T : Field) : Prop :=
  length T = n /\ Forall (fun row => length row = m) T.

(** [T'] is [T] with cell [(i, j)] replaced by [v] *)
Definition written (T : Field) (i j : nat) (v : float) (T' : Field) : Prop :=
  get T' i j = Some v /\
  forall i' j', (i', j') <> (i, j) -> get T' i' j' = get T i' j'.

(** One Gauss-Seidel update read off the current field [T]: the cell
    receives the binary64 product of [0.25] and the sum, added from the
    left, of the neighbours below, above, right and left of it *)
Definition relaxed (T : Field) (i j : nat) (T' : Field) : Prop :=
  exists a b c d,
    get T (i + 1) j = Some a /\ get T (i - 1) j = Some b /\
    get T i (j + 1) = Some c /\ get T i (j - 1) = Some d /\
    written T i j (0.25 * (a + b + c + d))%float T'.

(** The fields met along a list of visited cells *)
Fixpoint visited (cells : list (nat * nat)) (T T' : Field) : Prop :=
  match cells with
  | [] => T' = T
  | (i, j) :: rest => exists T1, relaxed T i j T1 /\ visited rest T1 T'
  end.

(** Interior cells in the order of the two nested loops *)
Definition interior (n m : nat) : list (nat * nat) :=
  flat_map (fun i => map (pair i) (irange 1 (m - 1))) (irange 1 (n - 1)).

(** The sample points of the 60 x 60 grid, as the program prints them *)
Definition positions60 : Positions :=
  {| wormA_x := 5; wormA_y := 30; wormB_x := 30; wormB_y := 54;
     wormC_x := 54; wormC_y := 30; wormD_x := 30; wormD_y := 5 |}.


(** A 4 x 4 grid with five different values *)
Definition small : Config :=
  {| start := 0; end_ := 2; d := 1; lenX := 4;
     Ttop := 1; Tbottom := 2; Tleft := 3; Tright := 4; Tguess := 5 |}.


(** The row of count [n] on the 60 x 60 grid: the count next to the four
    cells [T[30][5]], [T[54][30]], [T[30][54]], [T[5][30]] of a field
    initialised afresh and swept [n] times. *)
Definition row_of (c : Config) (n : Z) (r : Z * list float) : Prop :=
  exists T a b c' d,
    solve (lenX c) (lenY c) n (init c) = Some T /\
    get T 30 5 = Some a /\ get T 54 30 = Some b /\
    get T 30 54 = Some c' /\ get T 5 30 = Some d /\
    r = (n, [a; b; c'; d]).


(** The parameters of the source with a zero pore size *)
Definition clogged : Hydrogel :=
  {| Et := 0.2; drug_size := 4.5e-7; pore_size := 0; tor := 2.2;
     diffusivity_NO := 2.6e-5; diffusivity_EtOH := 0.84e-5;
     diffusivity_CO2 := 1.92e-5; diffusivity_N2 := 1.88e-5;
     diffusivity_acetone := 1.16e-5 |}.


(** Another assignment of the hydrogel parameters *)
Definition other_gel : Hydrogel :=
  {| Et := 0.9; drug_size := 1; pore_size := 2; tor := 3;
     diffusivity_NO := 4; diffusivity_EtOH := 5;
     diffusivity_CO2 := 6; diffusivity_N2 := 7;
     diffusivity_acetone := 8 |}.

(** ** Binary64 numbers as integers

    Every finite binary64 number is a multiple of [2 ^ -1074]; its quarter
    is a multiple of [2 ^ E0].  A number is valued in units of [2 ^ E0],
    the infinities at plus and minus [CAP], one step beyond the largest
    finite magnitude. *)

Definition E0 : Z := -1128.

Definition CAP : Z := 2 ^ 2152.

Definition sgn (s : bool) : Z := if s then -1 else 1.

Definition SFV (x : spec_float) : Z :=
  match x with
  | S754_zero _ => 0
  | S754_nan => 0
  | S754_infinity s => if s then - CAP else CAP
  | S754_finite s m e => (if s then -1 else 1) * (Z.pos m * 2 ^ (e - E0))
  end.

Definition valid (x : spec_float) : Prop := SpecFloat.valid_binary prec emax x = true.

Definition fin_sf (x : spec_float) : bool :=
  match x with S754_zero _ | S754_finite _ _ _ => true | _ => false end.

Definition ord_sf (x : spec_float) : bool :=
  match x with S754_nan => false | _ => true end.

Definition val (x : float) : Z := SFV (Prim2SF x).

Definition is_fin (x : float) : bool := fin_sf (Prim2SF x).

Definition not_nan (x : float) : bool := ord_sf (Prim2SF x).

(** [0.25] *)
Definition quarter_sf : spec_float := S754_finite false 4503599627370496 (-54).

(** Rounding to nearest, ties to even: [n / 2 ^ k] rounded to an integer *)
Definition rne (n k : Z) : Z :=
  let q := n / 2 ^ k in
  let r := n mod 2 ^ k in
  if (2 ^ k <? 2 * r) || ((2 ^ k =? 2 * r) && Z.odd q) then q + 1 else q.

(** The spacing of binary64 around the magnitude [n]: 53 significant bits,
    and nothing finer than [2 ^ -1074] *)
Definition grid (n : Z) : Z := Z.max (Z.log2 n + 1 - 53) 54.

(** The magnitude [n] rounded to binary64, before overflow *)
Definition rnd_mag (n : Z) : Z := rne n (grid n) * 2 ^ grid n.

(** The value of the binary64 number nearest to the exact value [n] *)
Definition rnd (n : Z) : Z := Z.sgn n * Z.min (rnd_mag (Z.abs n)) CAP.

(** A finite value whose four-fold average is computed exactly *)
Definition steady (v : float) : Prop := is_fin v = true /\ avg4 v v v v = v.

(** ** Fields compared cell by cell *)

(** [x] before [y] in the direction [up]: [x <= y] upwards, [y <= x]
    downwards; false as soon as one of them is a NaN *)
Definition le_dir (up : bool) (x y : float) : bool :=
  if up then (x <=? y)%float else (y <=? x)%float.

(** every cell of [T] lies between [a] and [b], [a] first in direction [up] *)
Definition within (up : bool) (a b : float) (T : Field) : Prop :=
  forall i j x, get T i j = Some x -> le_dir up a x = true /\ le_dir up x b = true.

(** [T] lies before [T'] at every cell *)
Definition along (up : bool) (T T' : Field) : Prop :=
  forall i j x x', get T i j = Some x -> get T' i j = Some x' -> le_dir up x x' = true.

(** [S] solves the averaging equation in binary64 at every interior cell *)
Definition laplace (n m : nat) (S : Field) : Prop :=
  shaped n m S /\
  forall i j, (1 <= i)%nat -> (i + 1 < n)%nat -> (1 <= j)%nat -> (j + 1 < m)%nat ->
    exists a b c d,
      get S (i + 1) j = Some a /\ get S (i - 1) j = Some b /\
      get S i (j + 1) = Some c /\ get S i (j - 1) = Some d /\
      get S i j = Some (avg4 a b c d).

(** The grid of the source with four equal edges above the guess *)
Definition equal_edges : Config :=
  {| start := 0; end_ := 500; d := 20; lenX := 60;
     Ttop := 100; Tbottom := 100; Tleft := 100; Tright := 100; Tguess := 0 |}.

(** The grid of the source with the guess at the value of the edges *)
Definition uniform : Config :=
  {| start := 0; end_ := 500; d := 20; lenX := 60;
     Ttop := 100; Tbottom := 100; Tleft := 100; Tright := 100; Tguess := 100 |}.

(** The grid of the source with edges so large that their sum overflows *)
Definition overflow : Config :=
  {| start := 0; end_ := 500; d := 20; lenX := 60;
     Ttop := 1e308; Tbottom := 1e308; Tleft := 1e308; Tright := 1e308; Tguess := 0 |}.

(** ** A barrier for the constants of the source *)

(** [r ^ k] by repeated multiplication *)
Fixpoint fpow (r : float) (k : nat) : float :=
  match k with
  | O => 1
  | S k' => (fpow r k' * r)%float
  end.

(** A field above the initial one that no update raises: 100 less a
    multiple of [j (59 - j) (1.25 ^ (59 - i) - 0.8 ^ (59 - i))] *)
Definition barrier_cell (i j : nat) : float :=
  (100 - 1.1e-07 * (float_of_nat j * float_of_nat (59 - j)
                    * (fpow 1.25 (59 - i) - fpow 0.8 (59 - i))))%float.

Definition barrier : Field :=
  (fun i => barrier_cell i <$> seq 0 60) <$> seq 0 60.

(** [T] is at or below [S] at every cell of the n x m grid *)
Definition belowb (n m : nat) (T S : Field) : bool :=
  forallb (fun i => forallb (fun j =>
    match get T i j, get S i j with
    | Some x, Some y => (x <=? y)%float
    | _, _ => false
    end) (seq 0 m)) (seq 0 n).

(** no update of an interior cell raises [S] *)
Definition superb (n m : nat) (S : Field) : bool :=
  forallb (fun '(i, j) =>
    match get S (i + 1) j, get S (i - 1) j, get S i (j + 1), get S i (j - 1), get S i j with
    | Some a, Some b, Some c, Some d, Some x => (avg4 a b c d <=? x)%float
    | _, _, _, _, _ => false
    end) (interior n m).

(** [S] is not raised (in direction [up]: not moved forward) by the update
    of any interior cell *)
Definition super (up : bool) (n m : nat) (S : Field) : Prop :=
  forall i j, (1 <= i)%nat -> (i + 1 < n)%nat -> (1 <= j)%nat -> (j + 1 < m)%nat ->
    exists a b c d x,
      get S (i + 1) j = Some a /\ get S (i - 1) j = Some b /\
      get S i (j + 1) = Some c /\ get S i (j - 1) = Some d /\
      get S i j = Some x /\ le_dir up (avg4 a b c d) x = true.

(** ** The order of the visits and the reach of the far edges *)

(** The order in which the two nested loops visit the cells *)
Definition lexlt (a b : nat * nat) : Prop :=
  (a.1 < b.1)%nat \/ (a.1 = b.1 /\ (a.2 < b.2)%nat).

(** The cell [(i, j)] is more than [k] cells away from the last row and from
    the last column of the n x m grid *)
Definition away (n m k i j : nat) : Prop :=
  (i + k < n - 1)%nat /\ (j + k < m - 1)%nat.

(** The constants of the source with other values on the top and right edges *)
Definition other_far_edges : Config :=
  {| start := 0; end_ := 500; d := 20; lenX := 60;
     Ttop := 7; Tbottom := 0; Tleft := 100; Tright := 3; Tguess := 0 |}.

(** The constants of the source with lower values on the edges *)
Definition cooler : Config :=
  {| start := 0; end_ := 500; d := 20; lenX := 60;
     Ttop := 50; Tbottom := 0; Tleft := 25; Tright := 100; Tguess := 0 |}.

(** ** Sample points, image names and other sweeps *)

(** ['diffusion.t%s.jpg' % (n)], the name of the image of count [n] *)
Definition image_name (n : Z) : String.string :=
  String.append "diffusion.t"
    (String.append (DecimalString.NilZero.string_of_int (Z.to_int n)) ".jpg").

(** The constants of the source on a grid of side [n] *)
Definition sized (n : nat) : Config :=
  {| start := 0; end_ := 500; d := 20; lenX := n;
     Ttop := 100; Tbottom := 0; Tleft := 100; Tright := 100; Tguess := 0 |}.

Definition coordinates (p : Positions) : list Z :=
  [wormA_x p; wormA_y p; wormB_x p; wormB_y p;
   wormC_x p; wormC_y p; wormD_x p; wormD_y p].

(** every coordinate is an index of the grid of side [n] *)
Definition in_grid (n : nat) (p : Positions) : bool :=
  forallb (fun k => (0 <=? k) && (k <? Z.of_nat n)) (coordinates p).

(** every coordinate is an interior index of the grid of side [n] *)
Definition in_interior (n : nat) (p : Positions) : bool :=
  forallb (fun k => (1 <=? k) && (k <? Z.of_nat n - 1)) (coordinates p).

(** the four points lie on the left, top, right and bottom edge, away from
    the corners *)
Definition on_edges (n : nat) (p : Positions) : bool :=
  (wormA_x p =? 0) && (wormB_y p =? Z.of_nat n - 1) &&
  (wormC_x p =? Z.of_nat n - 1) && (wormD_y p =? 0) &&
  forallb (fun k => (1 <=? k) && (k <? Z.of_nat n - 1))
    [wormA_y p; wormB_x p; wormC_y p; wormD_x p].

(** the sample points of every side in [lo .. lo + len - 1] pass [check] *)
Definition sides_pass (check : nat -> Positions -> bool) (lo len : nat) : bool :=
  forallb (fun n => match positions (sized n) with
                    | Some p => check n p
                    | None => false
                    end) (seq lo len).

(** The row of count [n]: the count next to the four cells [T[y][x]], at
    the sample points, of a field initialised afresh and swept [n] times *)
Definition row_at (c : Config) (n : Z) (r : Z * list float) : Prop :=
  exists T p a b c' d,
    solve (lenX c) (lenY c) n (init c) = Some T /\ positions c = Some p /\
    get T (Z.to_nat (wormA_y p)) (Z.to_nat (wormA_x p)) = Some a /\
    get T (Z.to_nat (wormB_y p)) (Z.to_nat (wormB_x p)) = Some b /\
    get T (Z.to_nat (wormC_y p)) (Z.to_nat (wormC_x p)) = Some c' /\
    get T (Z.to_nat (wormD_y p)) (Z.to_nat (wormD_x p)) = Some d /\
    r = (n, [a; b; c'; d]).

(** ** The plotting calls *)

(** The plotting calls accept the relaxed field of every count. *)
Definition plots (plot : Field -> option unit) (c : Config) : Prop :=
  forall n T, solve (lenX c) (lenY c) n (init c) = Some T -> plot T = Some tt.

(** A plotting routine to run the driver with: it raises on a field that
    holds an infinity or a NaN. *)
Definition plot_finite (T : Field) : option unit :=
  if forallb (forallb is_fin) T then Some tt else None.

(** The grid of the source with the guess between the edge values, swept
    over the counts 0, 1, ..., 5 *)
Definition lukewarm : Config :=
  {| start := 0; end_ := 5; d := 1; lenX := 60;
     Ttop := 100; Tbottom := 0; Tleft := 100; Tright := 100; Tguess := 50 |}.

(** The constants of the source with the two ends of the sweep exchanged *)
Definition reversed : Config :=
  {| start := 500; end_ := 0; d := 20; lenX := 60;
     Ttop := 100; Tbottom := 0; Tleft := 100; Tright := 100; Tguess := 0 |}.

(** The constants of the source counting down from 100 *)
Definition descending : Config :=
  {| start := 100; end_ := 0; d := -20; lenX := 60;
     Ttop := 100; Tbottom := 0; Tleft := 100; Tright := 100; Tguess := 0 |}.

(** * Properties *)

Section Shape.
Context {n m : nat}.
Implicit Types (T : Field) (i j : nat) (v : float).

Lemma shaped_row T i row : shaped n m T -> T !! i = Some row -> length row = m.
Proof.
  intros [_ HF] Hi. rewrite Forall_lookup in HF. exact (HF _ _ Hi).
Qed.

Lemma get_is_Some T i j :
  shaped n m T -> (i < n)%nat -> (j < m)%nat -> is_Some (get T i j).
Proof.
  intros HT Hi Hj. unfold get.
  destruct (lookup_lt_is_Some_2 T i) as [row Hrow]; [by rewrite (proj1 HT)|].
  rewrite Hrow. simpl. apply lookup_lt_is_Some_2.
  by rewrite (shaped_row _ _ _ HT Hrow).
Qed.

Lemma get_lt T i j x :
  shaped n m T -> get T i j = Some x -> (i < n)%nat /\ (j < m)%nat.
Proof.
  intros HT. unfold get. destruct (T !! i) as [row|] eqn:Hrow; [|done].
  simpl. intros Hj. split.
  - rewrite <- (proj1 HT). by eapply lookup_lt_Some.
  - rewrite <- (shaped_row _ _ _ HT Hrow). by eapply lookup_lt_Some.
Qed.

Lemma set_written T i j v :
  shaped n m T -> (i < n)%nat -> (j < m)%nat ->
  exists T', set T i j v = Some T' /\ shaped n m T' /\ written T i j v T'.
Proof.
  intros HT Hi Hj. unfold set.
  destruct (lookup_lt_is_Some_2 T i) as [row Hrow]; [by rewrite (proj1 HT)|].
  pose proof (shaped_row _ _ _ HT Hrow) as Hlen.
  destruct (lookup_lt_is_Some_2 row j) as [x Hx]; [by rewrite Hlen|].
  rewrite Hrow. simpl. rewrite Hx. simpl. eexists. split; [done|].
  split; [|split].
  - destruct HT as [HL HF]. split; [by rewrite length_insert|].
    apply Forall_insert; [done|]. by rewrite length_insert.
  - unfold get. rewrite list_lookup_insert_eq by (by rewrite (proj1 HT)).
    simpl. apply list_lookup_insert_eq. by rewrite Hlen.
  - intros i' j' Hne. unfold get.
    destruct (decide (i' = i)) as [->|Hi'].
    + rewrite list_lookup_insert_eq by (by rewrite (proj1 HT)).
      rewrite Hrow. simpl. apply list_lookup_insert_ne. congruence.
    + by rewrite list_lookup_insert_ne.
Qed.

Lemma relax_relaxed T i j :
  shaped n m T -> (1 <= i)%nat -> (i + 1 < n)%nat -> (1 <= j)%nat -> (j + 1 < m)%nat ->
  exists T', relax T i j = Some T' /\ shaped n m T' /\ relaxed T i j T'.
Proof.
  intros HT ????. unfold relax.
  destruct (get_is_Some T (i + 1) j HT) as [a Ha]; [lia..|].
  destruct (get_is_Some T (i - 1) j HT) as [b Hb]; [lia..|].
  destruct (get_is_Some T i (j + 1) HT) as [c Hc]; [lia..|].
  destruct (get_is_Some T i (j - 1) HT) as [d0 Hd]; [lia..|].
  rewrite Ha, Hb, Hc, Hd. simpl.
  destruct (set_written T i j (avg4 a b c d0) HT) as (T' & HS & HT' & HW); [lia..|].
  exists T'. split; [done|]. split; [done|]. by exists a, b, c, d0.
Qed.
End Shape.

(** ** Loops *)

Lemma for_each_app {A S : Type} (xs ys : list A) (body : S -> A -> option S) s :
  for_each (xs ++ ys) body s = for_each xs body s ≫= for_each ys body.
Proof.
  revert s. induction xs as [|x xs IH]; intros s; simpl; [done|].
  destruct (body s x); simpl; [apply IH|done].
Qed.

Lemma visited_app cells1 cells2 T T1 T2 :
  visited cells1 T T1 -> visited cells2 T1 T2 -> visited (cells1 ++ cells2) T T2.
Proof.
  revert T. induction cells1 as [|[i j] rest IH]; intros T; simpl.
  - by intros ->.
  - intros (T0 & HR & HV) H2. exists T0. split; [done|]. by apply IH.
Qed.

Lemma visited_frame cells T T' i j :
  visited cells T T' -> (i, j) ∉ cells -> get T' i j = get T i j.
Proof.
  revert T. induction cells as [|[i0 j0] rest IH]; intros T; simpl.
  - by intros ->.
  - intros (T1 & (a & b & c & d0 & _ & _ & _ & _ & _ & HW) & HV) Hnin.
    rewrite (IH T1 HV) by (intros ?; apply Hnin; by right).
    apply HW. intros [= -> ->]. apply Hnin. by left.
Qed.

Section Sweeps.
Context {n m : nat}.
Implicit Types (T : Field).

Lemma sweep_row_visited i js T :
  shaped n m T -> (1 <= i)%nat -> (i + 1 < n)%nat ->
  Forall (fun j => (1 <= j)%nat /\ (j + 1 < m)%nat) js ->
  exists T', for_each js (fun T j => relax T i j) T = Some T' /\
             shaped n m T' /\ visited (map (pair i) js) T T'.
Proof.
  intros HT Hi1 Hi2 Hjs. revert T HT.
  induction Hjs as [|j js [Hj1 Hj2] _ IH]; intros T HT; simpl.
  - by exists T.
  - destruct (relax_relaxed T i j HT) as (T1 & HR & HT1 & HV1); [lia..|].
    destruct (IH T1 HT1) as (T' & HF & HT' & HV).
    exists T'. rewrite HR. simpl. split; [done|]. split; [done|].
    by exists T1.
Qed.

Lemma irange_interior k : Forall (fun j => (1 <= j)%nat /\ (j + 1 < k)%nat) (irange 1 (k - 1)).
Proof.
  apply Forall_forall. intros j Hj. unfold irange in Hj.
  apply list_elem_of_In, in_seq in Hj. lia.
Qed.

Lemma rows_visited is_ T :
  shaped n m T -> Forall (fun i => (1 <= i)%nat /\ (i + 1 < n)%nat) is_ ->
  exists T', for_each is_ (sweep_row m) T = Some T' /\ shaped n m T' /\
             visited (flat_map (fun i => map (pair i) (irange 1 (m - 1))) is_) T T'.
Proof.
  intros HT His. revert T HT.
  induction His as [|i is_ [Hi1 Hi2] _ IH]; intros T HT; simpl.
  - by exists T.
  - destruct (sweep_row_visited i (irange 1 (m - 1)) T HT Hi1 Hi2 (irange_interior m))
      as (T1 & HR & HT1 & HV1).
    destruct (IH T1 HT1) as (T' & HF & HT' & HV).
    exists T'. fold (sweep_row m T i) in HR. rewrite HR. simpl.
    split; [done|]. split; [done|]. by eapply visited_app.
Qed.

Lemma sweep_visited T :
  shaped n m T ->
  exists T', sweep n m T = Some T' /\ shaped n m T' /\ visited (interior n m) T T'.
Proof. intros HT. apply rows_visited; [done|]. apply irange_interior. Qed.

Lemma sweeps_visited {A} (ks : list A) T :
  shaped n m T ->
  exists T', for_each ks (fun T _ => sweep n m T) T = Some T' /\ shaped n m T' /\
             visited (concat (replicate (length ks) (interior n m))) T T'.
Proof.
  intros HT. revert T HT. induction ks as [|k ks IH]; intros T HT; simpl.
  - by exists T.
  - destruct (sweep_visited T HT) as (T1 & HS & HT1 & HV1).
    destruct (IH T1 HT1) as (T' & HF & HT' & HV).
    exists T'. rewrite HS. simpl. split; [done|]. split; [done|].
    by eapply visited_app.
Qed.

Lemma solve_visited K T :
  shaped n m T ->
  exists T', solve n m K T = Some T' /\ shaped n m T' /\
             visited (concat (replicate (Z.to_nat K) (interior n m))) T T'.
Proof.
  intros HT. destruct (sweeps_visited (irange 0 (Z.to_nat K)) T HT) as (T' & H1 & H2 & H3).
  exists T'. unfold irange in H3. rewrite length_seq, Nat.sub_0_r in H3. done.
Qed.
End Sweeps.

Lemma elem_of_interior n m i j :
  (i, j) ∈ interior n m <-> (1 <= i)%nat /\ (i + 1 < n)%nat /\ (1 <= j)%nat /\ (j + 1 < m)%nat.
Proof.
  unfold interior, irange. rewrite list_elem_of_In, in_flat_map. split.
  - intros (i0 & Hi0 & Hin). apply in_map_iff in Hin as (j0 & Heq & Hj0).
    apply in_seq in Hi0, Hj0. inversion Heq; subst. lia.
  - intros (? & ? & ? & ?). exists i. split; [apply in_seq; lia|].
    apply in_map_iff. exists j. split; [done|]. apply in_seq; lia.
Qed.

Lemma elem_of_sweeps k n m i j :
  (i, j) ∈ concat (replicate k (interior n m)) -> (i, j) ∈ interior n m.
Proof.
  induction k as [|k IH]; simpl.
  - intros H. inversion H.
  - rewrite elem_of_app. intros [H|H]; [done|by apply IH].
Qed.

Lemma rows_length (js : list nat) lo k :
  length (flat_map (fun i => map (pair i) js) (seq lo k)) = (k * length js)%nat.
Proof.
  revert lo. induction k as [|k IH]; intros lo; simpl; [done|].
  by rewrite length_app, length_map, IH.
Qed.

Lemma rows_lookup (js : list nat) lo k a b j :
  (a < k)%nat -> js !! b = Some j ->
  flat_map (fun i => map (pair i) js) (seq lo k) !! (a * length js + b)%nat
  = Some ((lo + a)%nat, j).
Proof.
  intros Ha Hb. pose proof (lookup_lt_Some _ _ _ Hb) as Hlt.
  revert lo a Ha. induction k as [|k IH]; intros lo a Ha; [lia|]. simpl.
  destruct a as [|a].
  - rewrite lookup_app_l by (by rewrite length_map).
    simpl. rewrite list_lookup_fmap, Hb. simpl. by rewrite Nat.add_0_r.
  - rewrite lookup_app_r by (rewrite length_map; lia).
    rewrite length_map.
    replace (S a * length js + b - length js)%nat with (a * length js + b)%nat by lia.
    rewrite IH by lia. f_equal. f_equal. lia.
Qed.

Lemma interior_length n m : length (interior n m) = ((n - 2) * (m - 2))%nat.
Proof.
  unfold interior, irange. rewrite rows_length, length_seq. lia.
Qed.

Lemma interior_lookup n m a b :
  (a < n - 2)%nat -> (b < m - 2)%nat ->
  interior n m !! (a * (m - 2) + b)%nat = Some (1 + a, 1 + b)%nat.
Proof.
  intros Ha Hb. unfold interior, irange.
  replace (m - 2)%nat with (length (seq 1 (m - 1 - 1))) by (rewrite length_seq; lia).
  apply rows_lookup; [lia|]. apply lookup_seq_lt. lia.
Qed.

(** ** The initialiser, cell by cell *)

Lemma get_fill n m v i j :
  get (fill n m v) i j = if (i <? n)%nat && (j <? m)%nat then Some v else None.
Proof.
  unfold get, fill.
  destruct (Nat.ltb_spec i n) as [Hi|Hi]; simpl.
  - rewrite (proj2 (lookup_replicate _ _ _ _) (conj eq_refl Hi)). simpl.
    destruct (Nat.ltb_spec j m) as [Hj|Hj].
    + by apply lookup_replicate.
    + apply lookup_ge_None. rewrite length_replicate. lia.
  - rewrite (proj2 (lookup_ge_None _ _)); [done|]. rewrite length_replicate. lia.
Qed.

Lemma get_set_rows_from r v (T : Field) i j :
  get (set_rows_from r v T) i j = (fun x => if (r <=? i)%nat then v else x) <$> get T i j.
Proof.
  unfold get, set_rows_from. rewrite list_lookup_imap.
  destruct (T !! i) as [row|]; simpl; [|done].
  destruct (r <=? i)%nat; [|by destruct (row !! j)].
  rewrite list_lookup_fmap. by destruct (row !! j).
Qed.

Lemma get_set_rows_upto r v (T : Field) i j :
  get (set_rows_upto r v T) i j = (fun x => if (i <? r)%nat then v else x) <$> get T i j.
Proof.
  unfold get, set_rows_upto. rewrite list_lookup_imap.
  destruct (T !! i) as [row|]; simpl; [|done].
  destruct (i <? r)%nat; [|by destruct (row !! j)].
  rewrite list_lookup_fmap. by destruct (row !! j).
Qed.

Lemma get_set_cols_from c v (T : Field) i j :
  get (set_cols_from c v T) i j = (fun x => if (c <=? j)%nat then v else x) <$> get T i j.
Proof.
  unfold get, set_cols_from. rewrite list_lookup_fmap.
  destruct (T !! i) as [row|]; simpl; [|done]. by rewrite list_lookup_imap.
Qed.

Lemma get_set_cols_upto c v (T : Field) i j :
  get (set_cols_upto c v T) i j = (fun x => if (j <? c)%nat then v else x) <$> get T i j.
Proof.
  unfold get, set_cols_upto. rewrite list_lookup_fmap.
  destruct (T !! i) as [row|]; simpl; [|done]. by rewrite list_lookup_imap.
Qed.

Lemma get_init c i j :
  get (init c) i j =
  if (i <? lenX c)%nat && (j <? lenX c)%nat then
    Some (if (j =? 0)%nat then Tleft c
          else if (j =? lenX c - 1)%nat then Tright c
          else if (i =? 0)%nat then Tbottom c
          else if (i =? lenX c - 1)%nat then Ttop c
          else Tguess c)
  else None.
Proof.
  unfold init, lenY.
  rewrite get_set_cols_upto, get_set_cols_from, get_set_rows_upto, get_set_rows_from, get_fill.
  destruct (Nat.ltb_spec i (lenX c)), (Nat.ltb_spec j (lenX c)); simpl; try done.
  f_equal.
  destruct (Nat.ltb_spec j 1), (Nat.eqb_spec j 0); try lia; [done|].
  destruct (Nat.leb_spec (lenX c - 1) j), (Nat.eqb_spec j (lenX c - 1)); try lia; [done|].
  destruct (Nat.ltb_spec i 1), (Nat.eqb_spec i 0); try lia; [done|].
  destruct (Nat.leb_spec (lenX c - 1) i), (Nat.eqb_spec i (lenX c - 1)); try lia; done.
Qed.

Lemma shaped_init c : shaped (lenX c) (lenY c) (init c).
Proof.
  unfold init, lenY, set_cols_upto, set_cols_from, set_rows_upto, set_rows_from, fill.
  split.
  - by rewrite !length_fmap, !length_imap, length_replicate.
  - apply Forall_fmap, Forall_fmap, Forall_lookup. intros i row.
    rewrite list_lookup_imap.
    destruct (imap _ _ !! i) as [row1|] eqn:H1; [|done]. simpl. intros [= <-].
    rewrite list_lookup_imap in H1.
    destruct (replicate _ _ !! i) as [row0|] eqn:H0; [|done]. simpl in H1.
    apply lookup_replicate in H0 as [-> _]. injection H1 as <-.
    simpl. rewrite !length_imap.
    destruct (i <? 1)%nat, (lenX c - 1 <=? i)%nat;
      rewrite ?length_fmap, ?length_replicate; done.
Qed.

(** * Binary64 arithmetic *)

(** ** Rounding to nearest even *)

Lemma pow2_pos k : 0 <= k -> 0 < 2 ^ k.
Proof. intros. apply Z.pow_pos_nonneg; lia. Qed.

Lemma rne_bounds n k : n / 2 ^ k <= rne n k <= n / 2 ^ k + 1.
Proof. unfold rne. destruct (_ || _); lia. Qed.

Lemma rne_mono n1 n2 k : 0 <= k -> n1 <= n2 -> rne n1 k <= rne n2 k.
Proof.
  intros Hk Hn. pose proof (pow2_pos k Hk) as HP.
  pose proof (Z.div_le_mono n1 n2 (2 ^ k) HP Hn) as Hq.
  destruct (Z.eq_dec (n1 / 2 ^ k) (n2 / 2 ^ k)) as [E|NE].
  - assert (Hr : n1 mod 2 ^ k <= n2 mod 2 ^ k).
    { rewrite (Z.div_mod n1 (2 ^ k)), (Z.div_mod n2 (2 ^ k)) in Hn by lia.
      rewrite E in Hn. lia. }
    unfold rne. rewrite E.
    destruct (Z.ltb_spec (2 ^ k) (2 * (n1 mod 2 ^ k))),
             (Z.ltb_spec (2 ^ k) (2 * (n2 mod 2 ^ k))),
             (Z.eqb_spec (2 ^ k) (2 * (n1 mod 2 ^ k))),
             (Z.eqb_spec (2 ^ k) (2 * (n2 mod 2 ^ k)));
      simpl; try lia; destruct (Z.odd (n2 / 2 ^ k)); lia.
  - pose proof (rne_bounds n1 k). pose proof (rne_bounds n2 k). lia.
Qed.

Lemma rne_exact q k : 0 <= k -> rne (q * 2 ^ k) k = q.
Proof.
  intros Hk. pose proof (pow2_pos k Hk). unfold rne.
  rewrite Z.div_mul, Z.mod_mul by lia.
  destruct (Z.ltb_spec (2 ^ k) (2 * 0)); [lia|].
  destruct (Z.eqb_spec (2 ^ k) (2 * 0)); [lia|]. reflexivity.
Qed.

(** scaling the numerator and the grid together *)

Lemma rne_scale n k j : 0 <= k -> 0 <= j -> rne (n * 2 ^ j) (k + j) = rne n k.
Proof.
  intros Hk Hj. pose proof (pow2_pos k Hk). pose proof (pow2_pos j Hj).
  unfold rne. rewrite Z.pow_add_r by lia.
  rewrite Z.div_mul_cancel_r by lia.
  rewrite Z.mul_mod_distr_r by lia.
  replace (2 ^ k * 2 ^ j <? 2 * (n mod 2 ^ k * 2 ^ j)) with (2 ^ k <? 2 * (n mod 2 ^ k)).
  2:{ destruct (Z.ltb_spec (2 ^ k) (2 * (n mod 2 ^ k))), (Z.ltb_spec (2 ^ k * 2 ^ j) (2 * (n mod 2 ^ k * 2 ^ j))); try reflexivity; nia. }
  replace (2 ^ k * 2 ^ j =? 2 * (n mod 2 ^ k * 2 ^ j)) with (2 ^ k =? 2 * (n mod 2 ^ k)).
  2:{ destruct (Z.eqb_spec (2 ^ k) (2 * (n mod 2 ^ k))), (Z.eqb_spec (2 ^ k * 2 ^ j) (2 * (n mod 2 ^ k * 2 ^ j))); try reflexivity; nia. }
  reflexivity.
Qed.

(** ** The right shift of SpecFloat *)

Lemma iter_pos_nat {A} (f : A -> A) p x : SpecFloat.iter_pos f p x = Nat.iter (Pos.to_nat p) f x.
Proof.
  revert x. induction p as [p IH|p IH|]; intros x.
  - change (SpecFloat.iter_pos f p~1 x) with (SpecFloat.iter_pos f p (SpecFloat.iter_pos f p (f x))).
    rewrite !IH, Pos2Nat.inj_xI, Nat.iter_succ_r.
    replace (2 * Pos.to_nat p)%nat with (Pos.to_nat p + Pos.to_nat p)%nat by lia.
    by rewrite Nat.iter_add.
  - change (SpecFloat.iter_pos f p~0 x) with (SpecFloat.iter_pos f p (SpecFloat.iter_pos f p x)).
    rewrite !IH, Pos2Nat.inj_xO.
    replace (2 * Pos.to_nat p)%nat with (Pos.to_nat p + Pos.to_nat p)%nat by lia.
    by rewrite Nat.iter_add.
  - reflexivity.
Qed.

Lemma shr_1_spec m r s :
  0 <= m -> shr_1 (Build_shr_record m r s) = Build_shr_record (m / 2) (Z.odd m) (r || s).
Proof.
  intros Hm. rewrite <- Z.div2_div.
  destruct m as [|p|p]; [reflexivity| |lia]. destruct p; reflexivity.
Qed.

Lemma mod_pow2_succ m j :
  0 <= j -> m mod 2 ^ (j + 1) = m mod 2 ^ j + 2 ^ j * ((m / 2 ^ j) mod 2).
Proof.
  intros Hj. pose proof (pow2_pos j Hj).
  rewrite Z.pow_add_r, Z.pow_1_r by lia. apply Z.rem_mul_r; lia.
Qed.

Lemma shr_iter m (j : nat) :
  0 <= m ->
  Nat.iter (S j) shr_1 (Build_shr_record m false false)
  = Build_shr_record (m / 2 ^ Z.of_nat (S j)) (Z.odd (m / 2 ^ Z.of_nat j))
      (negb (m mod 2 ^ Z.of_nat j =? 0)).
Proof.
  intros Hm. induction j as [|j IH].
  - change (Nat.iter 1 shr_1 ?x) with (shr_1 x). rewrite shr_1_spec by lia.
    change (Z.of_nat 1) with 1. change (Z.of_nat 0) with 0.
    rewrite Z.pow_0_r, Z.pow_1_r, Z.div_1_r, Z.mod_1_r. reflexivity.
  - change (Nat.iter (S (S j)) shr_1 ?x) with (shr_1 (Nat.iter (S j) shr_1 x)).
    rewrite IH.
    assert (0 < 2 ^ Z.of_nat j) by (apply pow2_pos; lia).
    assert (0 < 2 ^ Z.of_nat (S j)) by (apply pow2_pos; lia).
    rewrite shr_1_spec by (apply Z.div_pos; lia).
    f_equal.
    + rewrite Z.div_div by lia. f_equal.
      replace (Z.of_nat (S (S j))) with (Z.of_nat (S j) + 1) by lia.
      rewrite Z.pow_add_r by lia. reflexivity.
    + replace (Z.of_nat (S j)) with (Z.of_nat j + 1) by lia.
      rewrite mod_pow2_succ by lia.
      pose proof (Z.mod_pos_bound m (2 ^ Z.of_nat j) ltac:(lia)).
      rewrite Zmod_odd.
      destruct (Z.odd (m / 2 ^ Z.of_nat j)); simpl.
      * destruct (Z.eqb_spec (m mod 2 ^ Z.of_nat j + 2 ^ Z.of_nat j * 1) 0); [lia|reflexivity].
      * rewrite Z.mul_0_r, Z.add_0_r. reflexivity.
Qed.

Lemma shr_rne m p e :
  0 <= m ->
  let '(mrs, e') := shr (Build_shr_record m false false) e (Z.pos p) in
  e' = e + Z.pos p /\ 0 <= shr_m mrs /\
  round_nearest_even (shr_m mrs) (loc_of_shr_record mrs) = rne m (Z.pos p).
Proof.
  intros Hm. unfold shr. rewrite iter_pos_nat.
  destruct (Pos.to_nat p) as [|j] eqn:Ej; [lia|].
  rewrite shr_iter by lia.
  assert (Hp : Z.pos p = Z.of_nat j + 1) by lia.
  split; [reflexivity|].
  assert (H1 : 0 < 2 ^ Z.of_nat j) by (apply pow2_pos; lia).
  assert (H2 : 0 < 2 ^ Z.of_nat (S j)) by (apply pow2_pos; lia).
  split; [simpl; apply Z.div_pos; lia|].
  unfold rne. rewrite Hp.
  replace (Z.of_nat (S j)) with (Z.of_nat j + 1) by lia.
  rewrite mod_pow2_succ by lia.
  rewrite (Z.pow_add_r 2 (Z.of_nat j) 1), Z.pow_1_r by lia.
  pose proof (Z.mod_pos_bound m (2 ^ Z.of_nat j) ltac:(lia)) as Hlow.
  rewrite Zmod_odd. simpl shr_m.
  set (low := m mod 2 ^ Z.of_nat j) in *.
  set (P := 2 ^ Z.of_nat j) in *.
  set (q := m / (P * 2)).
  unfold loc_of_shr_record.
  destruct (Z.odd (m / P)); simpl.
  - destruct (Z.eqb_spec low 0) as [E0|N0]; simpl.
    + destruct (Z.ltb_spec (P * 2) (2 * (low + P * 1))); [lia|].
      destruct (Z.eqb_spec (P * 2) (2 * (low + P * 1))); [|lia]. simpl.
      rewrite <- Z.negb_odd. destruct (Z.odd q); reflexivity.
    + destruct (Z.ltb_spec (P * 2) (2 * (low + P * 1))); [|lia]. reflexivity.
  - destruct (Z.ltb_spec (P * 2) (2 * (low + P * 0))); [lia|].
    destruct (Z.eqb_spec (P * 2) (2 * (low + P * 0))); [lia|]. simpl.
    destruct (negb (low =? 0)); reflexivity.
Qed.

Lemma fexp_eq x : fexp prec emax x = Z.max (x - 53) (-1074).
Proof. reflexivity. Qed.

Lemma digits_bounds p :
  2 ^ (Z.pos (digits2_pos p) - 1) <= Z.pos p < 2 ^ Z.pos (digits2_pos p).
Proof.
  induction p as [p IH|p IH|]; simpl digits2_pos.
  - rewrite Pos2Z.inj_succ. replace (Z.succ (Z.pos (digits2_pos p)) - 1) with (Z.succ (Z.pos (digits2_pos p) - 1)) by lia.
    rewrite !Z.pow_succ_r by lia. lia.
  - rewrite Pos2Z.inj_succ. replace (Z.succ (Z.pos (digits2_pos p)) - 1) with (Z.succ (Z.pos (digits2_pos p) - 1)) by lia.
    rewrite !Z.pow_succ_r by lia. lia.
  - simpl. lia.
Qed.

Lemma digits_log2 p : Z.pos (digits2_pos p) = Z.log2 (Z.pos p) + 1.
Proof.
  pose proof (digits_bounds p) as H.
  assert (Z.log2 (Z.pos p) = Z.pos (digits2_pos p) - 1); [|lia].
  apply Z.log2_unique; [lia|]. replace (Z.succ (Z.pos (digits2_pos p) - 1)) with (Z.pos (digits2_pos p)) by lia.
  exact H.
Qed.

Lemma log2_shift n j : 0 < n -> 0 <= j -> Z.log2 (n * 2 ^ j) = Z.log2 n + j.
Proof.
  intros Hn Hj. rewrite <- Z.shiftl_mul_pow2 by lia. apply Z.log2_shiftl; lia.
Qed.

Lemma pow2_le a b : 0 <= a <= b -> 2 ^ a <= 2 ^ b.
Proof. intros. apply Z.pow_le_mono_r; lia. Qed.

Lemma pow2_lt a b : 0 <= a < b -> 2 ^ a < 2 ^ b.
Proof. intros. apply Z.pow_lt_mono_r; lia. Qed.

(** first shift of [binary_round_aux] on an exact mantissa *)

Lemma shr_fexp_rne m e :
  e <= fexp prec emax (Z.pos (digits2_pos m) + e) ->
  exists mrs,
    shr_fexp prec emax (Z.pos m) e loc_Exact
    = (mrs, fexp prec emax (Z.pos (digits2_pos m) + e)) /\
    round_nearest_even (shr_m mrs) (loc_of_shr_record mrs)
    = rne (Z.pos m) (fexp prec emax (Z.pos (digits2_pos m) + e) - e).
Proof.
  intros Hk. unfold shr_fexp. simpl Zdigits2. simpl shr_record_of_loc.
  set (g := fexp prec emax (Z.pos (digits2_pos m) + e)) in *.
  destruct (g - e) as [|p|p] eqn:Ek; [| |lia].
  - eexists. split; [unfold shr; f_equal; lia|]. simpl.
    pose proof (rne_exact (Z.pos m) 0 ltac:(lia)) as H. rewrite Z.pow_0_r, Z.mul_1_r in H.
    by rewrite H.
  - pose proof (shr_rne (Z.pos m) p e ltac:(lia)) as H.
    destruct (shr _ e (Z.pos p)) as [mrs e'] eqn:Es. destruct H as (He & _ & HR).
    exists mrs. split; [f_equal; lia|]. exact HR.
Qed.

(** second shift: only a mantissa of 54 digits is shifted again *)

Lemma shr_fexp_again q g :
  0 <= q <= 2 ^ 53 -> -1074 <= g ->
  exists mrs e'',
    shr_fexp prec emax q g loc_Exact = (mrs, e'') /\
    (shr_m mrs, e'') = if q =? 2 ^ 53 then (2 ^ 52, g + 1) else (q, g).
Proof.
  intros Hq Hg. unfold shr_fexp.
  destruct (Z.eqb_spec q (2 ^ 53)) as [->|Hne].
  - rewrite fexp_eq. change (Zdigits2 (2 ^ 53)) with 54.
    replace (Z.max (54 + g - 53) (-1074) - g) with 1 by lia.
    eexists _, _. split; [reflexivity|]. simpl. f_equal; lia.
  - destruct q as [|p|p]; [| |lia].
    + rewrite fexp_eq. simpl Zdigits2.
      destruct (Z.max (0 + g - 53) (-1074) - g) as [|p|p] eqn:E; [|lia|];
        (eexists _, _; split; [reflexivity|]; reflexivity).
    + rewrite fexp_eq. simpl Zdigits2.
      pose proof (digits_bounds p) as Hd.
      assert (Z.pos (digits2_pos p) <= 53).
      { destruct (Z.le_gt_cases (Z.pos (digits2_pos p)) 53) as [|Hgt]; [done|].
        assert (2 ^ 53 <= 2 ^ (Z.pos (digits2_pos p) - 1)) by (apply pow2_le; lia). lia. }
      destruct (Z.max (Z.pos (digits2_pos p) + g - 53) (-1074) - g) as [|p'|p'] eqn:E; [|lia|];
        (eexists _, _; split; [reflexivity|]; reflexivity).
Qed.

Lemma CAP_eq : CAP = 2 ^ 53 * 2 ^ (971 - E0).
Proof. unfold CAP, E0. rewrite <- Z.pow_add_r by lia. reflexivity. Qed.

Lemma grid_scale m e :
  E0 <= e ->
  grid (Z.pos m * 2 ^ (e - E0)) = fexp prec emax (Z.pos (digits2_pos m) + e) - E0.
Proof.
  intros He. unfold grid. rewrite log2_shift by lia. rewrite fexp_eq, digits_log2.
  unfold E0 in *. lia.
Qed.

Lemma binary_round_aux_value s m e :
  E0 <= e -> e <= fexp prec emax (Z.pos (digits2_pos m) + e) ->
  binary_round_aux prec emax s (Z.pos m) e loc_Exact <> S754_nan /\
  SFV (binary_round_aux prec emax s (Z.pos m) e loc_Exact)
  = sgn s * Z.min (rnd_mag (Z.pos m * 2 ^ (e - E0))) CAP.
Proof.
  intros He Hk. unfold binary_round_aux.
  destruct (shr_fexp_rne m e Hk) as (mrs & -> & ->).
  set (g := fexp prec emax (Z.pos (digits2_pos m) + e)) in *.
  assert (Hg : -1074 <= g) by (unfold g; rewrite fexp_eq; lia).
  set (k := g - e) in *.
  assert (Hk0 : 0 <= k) by lia.
  pose proof (pow2_pos k Hk0) as HPk.
  pose proof (digits_bounds m) as Hd.
  set (dm := Z.pos (digits2_pos m)) in *.
  assert (Hdk : dm <= k + 53) by (unfold k, g; rewrite fexp_eq; lia).
  (* the quotient has at most 53 digits *)
  assert (Hq : 0 <= Z.pos m / 2 ^ k < 2 ^ 53).
  { split; [apply Z.div_pos; lia|].
    apply Z.div_lt_upper_bound; [lia|].
    assert (2 ^ dm <= 2 ^ (k + 53)) by (apply pow2_le; lia).
    rewrite Z.pow_add_r in * by lia. lia. }
  pose proof (rne_bounds (Z.pos m) k) as Hr.
  set (q' := rne (Z.pos m) k) in *.
  destruct (shr_fexp_again q' g ltac:(lia) Hg) as (mrs2 & e2 & -> & Hfin).
  (* the value before the cap *)
  assert (HU : rnd_mag (Z.pos m * 2 ^ (e - E0)) = q' * 2 ^ (g - E0)).
  { unfold rnd_mag. rewrite grid_scale by done.
    change (fexp prec emax (Z.pos (digits2_pos m) + e)) with g.
    replace (g - E0) with (k + (e - E0)) by (unfold k; lia).
    rewrite rne_scale by lia. reflexivity. }
  rewrite HU.
  assert (HgE : 0 <= g - E0) by (unfold E0; lia).
  pose proof (pow2_pos _ HgE) as HPg.
  destruct (Z.eqb_spec q' (2 ^ 53)) as [E53|N53].
  - injection Hfin as -> ->. rewrite E53.
    change (2 ^ 52) with (Z.pos 4503599627370496).
    destruct (Z.leb_spec (g + 1) (emax - prec)) as [Hle|Hgt]; (split; [done|]).
    + unfold SFV. fold (sgn s). f_equal.
      change (Z.pos 4503599627370496) with (2 ^ 52).
      replace (g + 1 - E0) with (1 + (g - E0)) by lia.
      rewrite Z.pow_add_r by lia.
      assert (2 ^ 53 * 2 ^ (g - E0) < CAP); [|lia].
      rewrite CAP_eq. apply Z.mul_lt_mono_pos_l; [lia|].
      apply pow2_lt. unfold emax, prec in Hle. lia.
    + unfold SFV. assert (CAP <= 2 ^ 53 * 2 ^ (g - E0)).
      { rewrite CAP_eq. apply Z.mul_le_mono_nonneg_l; [lia|].
        apply pow2_le. unfold emax, prec, E0 in *. lia. }
      rewrite Z.min_r by lia. unfold sgn. destruct s; lia.
  - injection Hfin as -> ->.
    destruct q' as [|p|p] eqn:Eq; [| |lia].
    + split; [done|]. simpl. rewrite Z.min_l; [lia|]. unfold CAP. lia.
    + destruct (Z.leb_spec g (emax - prec)) as [Hle|Hgt]; (split; [done|]).
      * unfold SFV. fold (sgn s). f_equal.
        assert (Z.pos p * 2 ^ (g - E0) < CAP); [|lia].
        rewrite CAP_eq.
        assert (2 ^ (g - E0) <= 2 ^ (971 - E0)) by (apply pow2_le; unfold emax, prec in Hle; lia).
        assert (Z.pos p < 2 ^ 53) by lia.
        pose proof (pow2_pos (971 - E0) ltac:(unfold E0; lia)). nia.
      * unfold SFV.
        assert (CAP <= Z.pos p * 2 ^ (g - E0)).
        { rewrite CAP_eq.
          assert (Hgd : g = dm + e - 53) by (unfold g in *; rewrite fexp_eq in *; unfold emax, prec in *; lia).
          assert (Hkd : k = dm - 53) by lia.
          assert (2 ^ 52 <= Z.pos m / 2 ^ k).
          { apply Z.div_le_lower_bound; [lia|].
            rewrite <- Z.pow_add_r by lia.
            replace (k + 52) with (dm - 1) by lia. lia. }
          assert (2 ^ (972 - E0) <= 2 ^ (g - E0)) by (apply pow2_le; unfold emax, prec, E0 in *; lia).
          replace (972 - E0) with (1 + (971 - E0)) in * by lia.
          rewrite Z.pow_add_r in * by (unfold E0; lia).
          pose proof (pow2_pos (971 - E0) ltac:(unfold E0; lia)).
          change (2 ^ 53) with (2 * 2 ^ 52). change (2 ^ 1) with 2 in *.
          assert (2 ^ 52 <= Z.pos p) by lia. nia. }
        rewrite Z.min_r by lia. unfold sgn. destruct s; lia.
Qed.

Lemma CAP_pos : 0 < CAP.
Proof. unfold CAP. apply pow2_pos. lia. Qed.

Lemma grid_ge n : 54 <= grid n.
Proof. unfold grid. lia. Qed.

Lemma U_nonneg n : 0 <= n -> 0 <= rnd_mag n.
Proof.
  intros Hn. unfold rnd_mag. pose proof (grid_ge n).
  pose proof (pow2_pos (grid n) ltac:(lia)).
  pose proof (rne_bounds n (grid n)).
  assert (0 <= n / 2 ^ grid n) by (apply Z.div_pos; lia). nia.
Qed.

Lemma U_mono n1 n2 : 0 < n1 <= n2 -> rnd_mag n1 <= rnd_mag n2.
Proof.
  intros Hn. unfold rnd_mag.
  pose proof (grid_ge n1) as G1. pose proof (grid_ge n2) as G2.
  pose proof (pow2_pos (grid n1) ltac:(lia)) as P1.
  pose proof (pow2_pos (grid n2) ltac:(lia)) as P2.
  assert (HL : Z.log2 n1 <= Z.log2 n2) by (apply Z.log2_le_mono; lia).
  destruct (Z.eq_dec (grid n1) (grid n2)) as [E|NE].
  - rewrite E. apply Z.mul_le_mono_nonneg_r; [lia|]. apply rne_mono; lia.
  - assert (Hlt : grid n1 < grid n2) by (unfold grid in *; lia).
    assert (Hg2 : grid n2 = Z.log2 n2 + 1 - 53) by (unfold grid in *; lia).
    assert (Hg1 : Z.log2 n1 + 1 <= grid n1 + 53) by (unfold grid; lia).
    pose proof (Z.log2_spec n1 ltac:(lia)) as [_ S1].
    pose proof (Z.log2_spec n2 ltac:(lia)) as [S2 _].
    pose proof (rne_bounds n1 (grid n1)) as B1.
    pose proof (rne_bounds n2 (grid n2)) as B2.
    assert (Q1 : n1 / 2 ^ grid n1 < 2 ^ 53).
    { apply Z.div_lt_upper_bound; [lia|].
      rewrite <- Z.pow_add_r by lia.
      pose proof (Z.log2_nonneg n1).
      assert (2 ^ Z.succ (Z.log2 n1) <= 2 ^ (grid n1 + 53)) by (apply pow2_le; lia). lia. }
    assert (Q2 : 2 ^ 52 <= n2 / 2 ^ grid n2).
    { apply Z.div_le_lower_bound; [lia|].
      rewrite <- Z.pow_add_r by lia.
      replace (grid n2 + 52) with (Z.log2 n2) by lia. lia. }
    assert (HP : 2 * 2 ^ grid n1 <= 2 ^ grid n2).
    { replace (2 * 2 ^ grid n1) with (2 ^ (grid n1 + 1)) by (rewrite Z.pow_add_r by lia; lia).
      apply pow2_le. lia. }
    transitivity (2 ^ 53 * 2 ^ grid n1); [apply Z.mul_le_mono_nonneg_r; lia|].
    transitivity (2 ^ 52 * 2 ^ grid n2); [|apply Z.mul_le_mono_nonneg_r; lia].
    change (2 ^ 53) with (2 ^ 52 * 2). rewrite <- Z.mul_assoc.
    apply Z.mul_le_mono_nonneg_l; lia.
Qed.

Lemma U_0 : rnd_mag 0 = 0.
Proof. reflexivity. Qed.

Lemma F_mono n1 n2 : n1 <= n2 -> rnd n1 <= rnd n2.
Proof.
  intros Hn. unfold rnd. pose proof CAP_pos.
  pose proof (U_nonneg (Z.abs n1) ltac:(lia)).
  pose proof (U_nonneg (Z.abs n2) ltac:(lia)).
  destruct (Z.sgn_spec n1) as [[? ->]|[[? ->]|[? ->]]],
           (Z.sgn_spec n2) as [[? ->]|[[? ->]|[? ->]]]; try lia.
  - pose proof (U_mono (Z.abs n1) (Z.abs n2) ltac:(lia)). lia.
  - pose proof (U_mono (Z.abs n2) (Z.abs n1) ltac:(lia)). lia.
Qed.

Lemma F_bounds n : - CAP <= rnd n <= CAP.
Proof.
  unfold rnd. pose proof CAP_pos. pose proof (U_nonneg (Z.abs n) ltac:(lia)).
  destruct (Z.sgn_spec n) as [[? ->]|[[? ->]|[? ->]]]; lia.
Qed.

(** ** Valid binary64 numbers *)

Lemma valid_finite s m e :
  valid (S754_finite s m e) ->
  fexp prec emax (Z.pos (digits2_pos m) + e) = e /\ -1074 <= e <= 971 /\
  Z.pos (digits2_pos m) <= 53 /\ (-1074 < e -> Z.pos (digits2_pos m) = 53).
Proof.
  unfold valid, SpecFloat.valid_binary, bounded, canonical_mantissa.
  intros H. apply andb_true_iff in H as [H1 H2].
  apply Z.eqb_eq in H1. apply Z.leb_le in H2.
  rewrite fexp_eq in *. unfold emax, prec in *. lia.
Qed.

Lemma finite_value_bounds s m e :
  valid (S754_finite s m e) -> 0 < Z.pos m * 2 ^ (e - E0) < CAP.
Proof.
  intros H. apply valid_finite in H as (_ & He & Hd & _).
  pose proof (digits_bounds m) as [_ Hm].
  assert (2 ^ Z.pos (digits2_pos m) <= 2 ^ 53) by (apply pow2_le; lia).
  assert (0 < 2 ^ (e - E0)) by (apply pow2_pos; unfold E0; lia).
  assert (2 ^ (e - E0) <= 2 ^ (971 - E0)) by (apply pow2_le; unfold E0; lia).
  rewrite CAP_eq. split; [lia|]. nia.
Qed.

Lemma U_exact s m e :
  valid (S754_finite s m e) -> rnd_mag (Z.pos m * 2 ^ (e - E0)) = Z.pos m * 2 ^ (e - E0).
Proof.
  intros H. apply valid_finite in H as (Hc & He & _).
  unfold rnd_mag. rewrite grid_scale by (unfold E0; lia). rewrite Hc.
  rewrite rne_exact by (unfold E0; lia). reflexivity.
Qed.

Lemma U_CAP : rnd_mag CAP = CAP.
Proof. vm_compute. reflexivity. Qed.

Lemma F_exact x : valid x -> x <> S754_nan -> rnd (SFV x) = SFV x.
Proof.
  intros Hv Hn. pose proof CAP_pos. destruct x as [s|s| |s m e]; [reflexivity| |done|].
  - destruct s; vm_compute; reflexivity.
  - pose proof (finite_value_bounds s m e Hv) as Hb.
    pose proof (U_exact s m e Hv) as HU.
    unfold rnd. simpl SFV. destruct s.
    + rewrite Z.sgn_neg by lia. rewrite Z.abs_neq by lia.
      replace (- (-1 * (Z.pos m * 2 ^ (e - E0)))) with (Z.pos m * 2 ^ (e - E0)) by lia.
      rewrite HU. rewrite Z.min_l by lia. lia.
    + rewrite Z.sgn_pos by lia. rewrite Z.abs_eq by lia.
      replace (1 * (Z.pos m * 2 ^ (e - E0))) with (Z.pos m * 2 ^ (e - E0)) by lia.
      rewrite HU. rewrite Z.min_l by lia. lia.
Qed.

(** the order of two valid mantissa-exponent pairs *)

Lemma finite_lt_exp s1 m1 e1 s2 m2 e2 :
  valid (S754_finite s1 m1 e1) -> valid (S754_finite s2 m2 e2) -> e1 < e2 ->
  Z.pos m1 * 2 ^ (e1 - E0) < Z.pos m2 * 2 ^ (e2 - E0).
Proof.
  intros H1 H2 He.
  apply valid_finite in H1 as (_ & He1 & Hd1 & _).
  apply valid_finite in H2 as (_ & He2 & _ & Hd2).
  pose proof (digits_bounds m1) as [_ B1]. pose proof (digits_bounds m2) as [B2 _].
  rewrite Hd2 in B2 by lia. change (2 ^ (53 - 1)) with (2 ^ 52) in B2.
  assert (2 ^ Z.pos (digits2_pos m1) <= 2 ^ 53) by (apply pow2_le; lia).
  assert (0 < 2 ^ (e1 - E0)) by (apply pow2_pos; unfold E0; lia).
  assert (2 * 2 ^ (e1 - E0) <= 2 ^ (e2 - E0)).
  { replace (2 * 2 ^ (e1 - E0)) with (2 ^ (e1 - E0 + 1)) by (rewrite Z.pow_add_r by (unfold E0; lia); lia).
    apply pow2_le. unfold E0. lia. }
  change (2 ^ 53) with (2 * 2 ^ 52) in *. nia.
Qed.

Lemma SFcompare_value x y :
  valid x -> valid y -> x <> S754_nan -> y <> S754_nan ->
  SFcompare x y = Some (SFV x ?= SFV y).
Proof.
  intros Hx Hy Nx Ny. pose proof CAP_pos.
  destruct x as [sx|sx| |sx mx ex], y as [sy|sy| |sy my ey]; try done;
    try pose proof (finite_value_bounds _ _ _ Hx) as Bx;
    try pose proof (finite_value_bounds _ _ _ Hy) as By_;
    unfold SFcompare, SFV; f_equal; symmetry.
  1-7: destruct sx, sy;
    first [apply Z.compare_eq_iff; lia|apply Z.compare_lt_iff; lia|apply Z.compare_gt_iff; lia].
  - destruct sx, sy.
    + destruct (Z.compare_spec ex ey) as [->|Hlt|Hgt].
      * rewrite Pos.compare_cont_spec. unfold Pos.switch_Eq.
        assert (0 < 2 ^ (ey - E0)) by (apply valid_finite in Hy; apply pow2_pos; unfold E0; lia).
        destruct (Pos.compare_spec mx my) as [->|Hm|Hm]; simpl;
          [apply Z.compare_eq_iff|apply Z.compare_gt_iff|apply Z.compare_lt_iff]; nia.
      * pose proof (finite_lt_exp _ _ _ _ _ _ Hx Hy Hlt). apply Z.compare_gt_iff. lia.
      * pose proof (finite_lt_exp _ _ _ _ _ _ Hy Hx ltac:(lia)). apply Z.compare_lt_iff. lia.
    + apply Z.compare_lt_iff. lia.
    + apply Z.compare_gt_iff. lia.
    + destruct (Z.compare_spec ex ey) as [->|Hlt|Hgt].
      * rewrite Pos.compare_cont_spec. unfold Pos.switch_Eq.
        assert (0 < 2 ^ (ey - E0)) by (apply valid_finite in Hy; apply pow2_pos; unfold E0; lia).
        destruct (Pos.compare_spec mx my) as [->|Hm|Hm]; simpl;
          [apply Z.compare_eq_iff|apply Z.compare_lt_iff|apply Z.compare_gt_iff]; nia.
      * pose proof (finite_lt_exp _ _ _ _ _ _ Hx Hy Hlt). apply Z.compare_lt_iff. lia.
      * pose proof (finite_lt_exp _ _ _ _ _ _ Hy Hx ltac:(lia)). apply Z.compare_gt_iff. lia.
Qed.

Lemma shl_align_le m e e' :
  e' <= e ->
  exists m', shl_align m e e' = (m', e') /\ Z.pos m' = Z.pos m * 2 ^ (e - e').
Proof.
  intros H. unfold shl_align.
  destruct (e' - e) as [|p|p] eqn:E; [|lia|].
  - exists m. replace e' with e by lia. rewrite Z.sub_diag. split; [done|lia].
  - exists (Pos.iter xO m p). split; [done|].
    change (Pos.iter xO m p) with (shift_pos p m). rewrite shift_pos_correct.
    replace (e - e') with (Z.pos p) by lia. rewrite Z.pow_pos_fold. lia.
Qed.

Lemma shl_align_gt m e e' : e <= e' -> shl_align m e e' = (m, e).
Proof.
  intros H. unfold shl_align. destruct (e' - e) as [|p|p] eqn:E; [done|done|lia].
Qed.

Lemma binary_round_value s p e :
  -1074 <= e ->
  binary_round prec emax s p e <> S754_nan /\
  SFV (binary_round prec emax s p e) = sgn s * Z.min (rnd_mag (Z.pos p * 2 ^ (e - E0))) CAP.
Proof.
  intros He. unfold binary_round.
  set (g := fexp prec emax (Z.pos (digits2_pos p) + e)).
  assert (Hg : -1074 <= g) by (unfold g; rewrite fexp_eq; lia).
  destruct (Z.le_gt_cases e g) as [Hle|Hgt].
  - rewrite shl_align_gt by done.
    apply binary_round_aux_value; [unfold E0; lia|done].
  - destruct (shl_align_le p e g ltac:(lia)) as (m' & -> & Hm').
    assert (Hd : Z.pos (digits2_pos m') + g = Z.pos (digits2_pos p) + e).
    { rewrite !digits_log2, Hm', log2_shift by lia. lia. }
    assert (HV : Z.pos m' * 2 ^ (g - E0) = Z.pos p * 2 ^ (e - E0)).
    { rewrite Hm', <- Z.mul_assoc, <- Z.pow_add_r by (unfold E0; lia).
      f_equal. f_equal. lia. }
    rewrite <- HV. apply binary_round_aux_value; [unfold E0; lia|].
    rewrite Hd. fold g. lia.
Qed.

Lemma F_value (s : bool) (p : positive) (j : Z) :
  0 <= j -> sgn s * Z.min (rnd_mag (Z.pos p * 2 ^ j)) CAP = rnd (sgn s * (Z.pos p * 2 ^ j)).
Proof.
  intros Hj. pose proof (pow2_pos j Hj). unfold rnd.
  assert (0 < Z.pos p * 2 ^ j) by lia.
  destruct s; unfold sgn.
  - rewrite Z.sgn_neg by lia. rewrite Z.abs_neq by lia. f_equal. f_equal. f_equal. lia.
  - rewrite Z.sgn_pos by lia. rewrite Z.abs_eq by lia. f_equal. f_equal. f_equal. lia.
Qed.

Lemma SFadd_value x y :
  valid x -> valid y -> fin_sf x = true -> fin_sf y = true ->
  SFadd prec emax x y <> S754_nan /\
  SFV (SFadd prec emax x y) = rnd (SFV x + SFV y).
Proof.
  intros Hx Hy Fx Fy.
  destruct x as [sx|sx| |sx mx ex], y as [sy|sy| |sy my ey]; try done.
  - split; [by destruct sx, sy|]. by destruct sx, sy.
  - split; [done|]. unfold SFadd. change (SFV (S754_zero sx)) with 0.
    rewrite Z.add_0_l, F_exact by done. done.
  - split; [done|]. unfold SFadd. change (SFV (S754_zero sy)) with 0.
    rewrite Z.add_0_r, F_exact by done. done.
  - pose proof (valid_finite _ _ _ Hx) as (_ & Hex & _).
    pose proof (valid_finite _ _ _ Hy) as (_ & Hey & _).
    unfold SFadd. set (ez := Z.min ex ey).
    destruct (shl_align_le mx ex ez ltac:(lia)) as (mx' & -> & Hmx).
    destruct (shl_align_le my ey ez ltac:(lia)) as (my' & -> & Hmy).
    cbn [fst].
    assert (HP : 0 < 2 ^ (ez - E0)) by (apply pow2_pos; unfold E0; lia).
    assert (HS : (cond_Zopp sx (Z.pos mx') + cond_Zopp sy (Z.pos my')) * 2 ^ (ez - E0)
                 = SFV (S754_finite sx mx ex) + SFV (S754_finite sy my ey)).
    { unfold SFV. rewrite Hmx, Hmy.
      replace (ex - E0) with ((ex - ez) + (ez - E0)) by lia.
      replace (ey - E0) with ((ey - ez) + (ez - E0)) by lia.
      rewrite !Z.pow_add_r by (unfold E0; lia).
      destruct sx, sy; simpl cond_Zopp; lia. }
    rewrite <- HS.
    destruct (cond_Zopp sx (Z.pos mx') + cond_Zopp sy (Z.pos my')) as [|p|p] eqn:ES.
    + split; [done|]. reflexivity.
    + unfold binary_normalize.
      destruct (binary_round_value false p ez ltac:(lia)) as [HN HV].
      split; [done|]. rewrite HV. rewrite F_value by (unfold E0; lia).
      f_equal. unfold sgn. lia.
    + unfold binary_normalize.
      destruct (binary_round_value true p ez ltac:(lia)) as [HN HV].
      split; [done|]. rewrite HV. rewrite F_value by (unfold E0; lia).
      f_equal. unfold sgn. lia.
Qed.

Lemma SFmul_quarter_value x :
  valid x -> fin_sf x = true ->
  SFmul prec emax quarter_sf x <> S754_nan /\
  SFV (SFmul prec emax quarter_sf x) = rnd (SFV x / 4).
Proof.
  intros Hx Fx. destruct x as [sx|sx| |sx mx ex]; try done.
  pose proof (valid_finite _ _ _ Hx) as (_ & Hex & _).
  unfold quarter_sf, SFmul. cbn [xorb].
  assert (Hm : Z.pos (4503599627370496 * mx) = Z.pos mx * 2 ^ 52) by lia.
  assert (Hk : -54 + ex <= fexp prec emax (Z.pos (digits2_pos (4503599627370496 * mx)) + (-54 + ex))).
  { rewrite fexp_eq, digits_log2, Hm, log2_shift by lia.
    pose proof (Z.log2_nonneg (Z.pos mx)). lia. }
  destruct (binary_round_aux_value sx (4503599627370496 * mx) (-54 + ex) ltac:(unfold E0; lia) Hk)
    as [HN HV].
  split; [done|]. rewrite HV.
  assert (HP : 0 < 2 ^ (-54 + ex - E0)) by (apply pow2_pos; unfold E0; lia).
  rewrite F_value by (unfold E0; lia). f_equal.
  unfold SFV. rewrite Hm. fold (sgn sx).
  replace (ex - E0) with (2 + (52 + (-54 + ex - E0))) by lia.
  rewrite !Z.pow_add_r by (unfold E0; lia).
  change (2 ^ 2) with 4.
  replace (sgn sx * (Z.pos mx * (4 * (2 ^ 52 * 2 ^ (-54 + ex - E0)))))
    with ((sgn sx * (Z.pos mx * 2 ^ 52 * 2 ^ (-54 + ex - E0))) * 4) by lia.
  by rewrite Z.div_mul by lia.
Qed.

Lemma ord_sf_nan x : ord_sf x = true <-> x <> S754_nan.
Proof. by destruct x. Qed.

Lemma SFV_range x : valid x -> - CAP <= SFV x <= CAP.
Proof.
  intros Hx. pose proof CAP_pos. destruct x as [s|s| |s m e]; simpl; try lia.
  - destruct s; lia.
  - pose proof (finite_value_bounds s m e Hx). destruct s; lia.
Qed.

Lemma fin_sf_range x : valid x -> fin_sf x = true -> - CAP < SFV x < CAP.
Proof.
  intros Hx Hf. pose proof CAP_pos. destruct x as [s|s| |s m e]; try done; simpl; try lia.
  pose proof (finite_value_bounds s m e Hx). destruct s; lia.
Qed.

Lemma range_fin_sf x : ord_sf x = true -> - CAP < SFV x < CAP -> fin_sf x = true.
Proof. destruct x as [s|s| |s m e]; try done. simpl. destruct s; lia. Qed.

Lemma SFadd_ord x y :
  valid x -> valid y -> ord_sf x = true -> fin_sf y = true ->
  ord_sf (SFadd prec emax x y) = true.
Proof.
  intros Hx Hy Ox Fy. destruct (fin_sf x) eqn:Fx.
  - destruct (SFadd_value x y Hx Hy Fx Fy) as [HN _]. by apply ord_sf_nan.
  - destruct x as [s|s| |s m e]; try done. by destruct y.
Qed.

(** ** Primitive floats through their values *)

Lemma Prim_valid x : valid (Prim2SF x).
Proof. apply Prim2SF_valid. Qed.

Lemma Fv_range x : - CAP <= val x <= CAP.
Proof. apply SFV_range, Prim_valid. Qed.

Lemma classify_value x :
  not_nan x = true ->
  (is_fin x = true /\ - CAP < val x < CAP) \/
  (Prim2SF x = S754_infinity true /\ val x = - CAP) \/
  (Prim2SF x = S754_infinity false /\ val x = CAP).
Proof.
  unfold not_nan, is_fin, val. intros Hx. pose proof (Prim_valid x) as Hv.
  destruct (Prim2SF x) as [s|s| |s m e] eqn:E; try done.
  - left. split; [done|]. by apply fin_sf_range.
  - destruct s; [right; left|right; right]; done.
  - left. split; [done|]. by apply fin_sf_range.
Qed.

Lemma fin_ord x : is_fin x = true -> not_nan x = true.
Proof. unfold is_fin, not_nan. by destruct (Prim2SF x). Qed.

Lemma leb_value x y :
  (x <=? y)%float = true <-> not_nan x = true /\ not_nan y = true /\ val x <= val y.
Proof.
  rewrite FloatAxioms.leb_spec. unfold SFleb, not_nan, val.
  pose proof (Prim_valid x) as Vx. pose proof (Prim_valid y) as Vy.
  destruct (ord_sf (Prim2SF x)) eqn:Ox.
  - destruct (ord_sf (Prim2SF y)) eqn:Oy.
    + rewrite SFcompare_value by (done || by apply ord_sf_nan).
      destruct (Z.compare_spec (SFV (Prim2SF x)) (SFV (Prim2SF y))); split;
        try done; try (intros (_ & _ & ?)); try lia; intros _; (split; [done|split; [done|lia]]).
    + replace (Prim2SF y) with S754_nan by (by destruct (Prim2SF y)).
      split; [by destruct (Prim2SF x)|by intros (_ & ? & _)].
  - replace (Prim2SF x) with S754_nan by (by destruct (Prim2SF x)).
    split; [done|by intros (? & _)].
Qed.

Lemma add_value x y :
  is_fin x = true -> is_fin y = true ->
  not_nan (x + y) = true /\ val (x + y) = rnd (val x + val y).
Proof.
  unfold is_fin, not_nan, val. intros Fx Fy. rewrite FloatAxioms.add_spec.
  destruct (SFadd_value (Prim2SF x) (Prim2SF y)) as [HN HV]; try done; try apply Prim_valid.
  split; [|done]. by apply ord_sf_nan.
Qed.

Lemma add_inf_l x y s :
  Prim2SF x = S754_infinity s -> not_nan (x + y) = true -> Prim2SF (x + y) = S754_infinity s.
Proof.
  unfold not_nan. rewrite FloatAxioms.add_spec. intros ->. unfold SF64add, SFadd.
  destruct (Prim2SF y) as [sy|sy| |sy my ey]; try done. by destruct s, sy.
Qed.

Lemma add_inf_r x y s :
  Prim2SF y = S754_infinity s -> not_nan (x + y) = true -> Prim2SF (x + y) = S754_infinity s.
Proof.
  unfold not_nan. rewrite FloatAxioms.add_spec. intros ->. unfold SF64add, SFadd.
  destruct (Prim2SF x) as [sx|sx| |sx mx ex]; try done. by destruct s, sx.
Qed.

Lemma add_ord x y : not_nan x = true -> is_fin y = true -> not_nan (x + y) = true.
Proof.
  intros Ox Fy. destruct (classify_value x Ox) as [[Fx _]|[[E _]|[E _]]].
  - by apply add_value.
  - unfold not_nan, is_fin in *. rewrite FloatAxioms.add_spec, E. by destruct (Prim2SF y).
  - unfold not_nan, is_fin in *. rewrite FloatAxioms.add_spec, E. by destruct (Prim2SF y).
Qed.

Lemma add_mono x x' y y' :
  not_nan x = true -> not_nan x' = true -> not_nan y = true -> not_nan y' = true ->
  val x <= val x' -> val y <= val y' ->
  not_nan (x + y) = true -> not_nan (x' + y') = true ->
  val (x + y) <= val (x' + y').
Proof.
  intros Ox Ox' Oy Oy' Hx Hy O1 O2. pose proof CAP_pos.
  pose proof (Fv_range (x + y)). pose proof (Fv_range (x' + y')).
  destruct (classify_value x Ox) as [[Fx ?]|[[Ex ?]|[Ex ?]]];
  destruct (classify_value x' Ox') as [[Fx' ?]|[[Ex' ?]|[Ex' ?]]]; try lia;
  destruct (classify_value y Oy) as [[Fy ?]|[[Ey ?]|[Ey ?]]];
  destruct (classify_value y' Oy') as [[Fy' ?]|[[Ey' ?]|[Ey' ?]]]; try lia;
  first
    [ destruct (add_value x y Fx Fy) as [_ ->];
      destruct (add_value x' y' Fx' Fy') as [_ ->]; apply F_mono; lia
    | unfold val at 1; rewrite (add_inf_l x y true) by done; simpl; lia
    | unfold val at 1; rewrite (add_inf_r x y true) by done; simpl; lia
    | unfold val at 2; rewrite (add_inf_l x' y' false) by done; simpl; lia
    | unfold val at 2; rewrite (add_inf_r x' y' false) by done; simpl; lia ].
Qed.

Lemma quarter_sf_eq : Prim2SF 0.25 = quarter_sf.
Proof. reflexivity. Qed.

Lemma quarter_value x :
  is_fin x = true -> not_nan (0.25 * x) = true /\ val (0.25 * x) = rnd (val x / 4).
Proof.
  unfold is_fin, not_nan, val. intros Fx. rewrite FloatAxioms.mul_spec, quarter_sf_eq.
  destruct (SFmul_quarter_value (Prim2SF x)) as [HN HV]; try done; try apply Prim_valid.
  split; [|done]. by apply ord_sf_nan.
Qed.

Lemma quarter_inf x s :
  Prim2SF x = S754_infinity s -> Prim2SF (0.25 * x) = S754_infinity s.
Proof. rewrite FloatAxioms.mul_spec, quarter_sf_eq. by intros ->. Qed.

Lemma quarter_ord x : not_nan x = true -> not_nan (0.25 * x) = true.
Proof.
  intros Ox. destruct (classify_value x Ox) as [[Fx _]|[[E _]|[E _]]].
  - by apply quarter_value.
  - unfold not_nan. by rewrite (quarter_inf x true).
  - unfold not_nan. by rewrite (quarter_inf x false).
Qed.

Lemma quarter_mono x x' :
  not_nan x = true -> not_nan x' = true -> val x <= val x' -> val (0.25 * x) <= val (0.25 * x').
Proof.
  intros Ox Ox' Hx. pose proof CAP_pos.
  pose proof (Fv_range (0.25 * x)). pose proof (Fv_range (0.25 * x')).
  destruct (classify_value x Ox) as [[Fx ?]|[[Ex ?]|[Ex ?]]];
  destruct (classify_value x' Ox') as [[Fx' ?]|[[Ex' ?]|[Ex' ?]]]; try lia;
  first
    [ destruct (quarter_value x Fx) as [_ ->];
      destruct (quarter_value x' Fx') as [_ ->]; apply F_mono;
      apply Z.div_le_mono; lia
    | unfold val at 1; rewrite (quarter_inf x true) by done; simpl; lia
    | unfold val at 2; rewrite (quarter_inf x' false) by done; simpl; lia ].
Qed.

(** NaN is absorbing, so an ordered result has ordered operands. *)

Lemma add_ord_inv x y : not_nan (x + y) = true -> not_nan x = true /\ not_nan y = true.
Proof.
  unfold not_nan. rewrite FloatAxioms.add_spec.
  destruct (Prim2SF x) as [sx|sx| |sx mx ex], (Prim2SF y) as [sy|sy| |sy my ey]; done.
Qed.

Lemma quarter_ord_inv x : not_nan (0.25 * x) = true -> not_nan x = true.
Proof.
  unfold not_nan. rewrite FloatAxioms.mul_spec, quarter_sf_eq. by destruct (Prim2SF x).
Qed.

Lemma avg4_mono a b c d a' b' c' d' :
  (a <=? a')%float = true -> (b <=? b')%float = true ->
  (c <=? c')%float = true -> (d <=? d')%float = true ->
  not_nan (avg4 a b c d) = true -> not_nan (avg4 a' b' c' d') = true ->
  (avg4 a b c d <=? avg4 a' b' c' d')%float = true.
Proof.
  rewrite !leb_value. intros (Oa & Oa' & Ha) (Ob & Ob' & Hb) (Oc & Oc' & Hc) (Od & Od' & Hd) O1 O2.
  split; [done|]. split; [done|]. unfold avg4 in *.
  pose proof (quarter_ord_inv _ O1) as O3. pose proof (quarter_ord_inv _ O2) as O3'.
  pose proof (add_ord_inv _ _ O3) as [O4 _]. pose proof (add_ord_inv _ _ O3') as [O4' _].
  pose proof (add_ord_inv _ _ O4) as [O5 _]. pose proof (add_ord_inv _ _ O4') as [O5' _].
  apply quarter_mono; [done..|].
  apply add_mono; [done..| |done|done|done].
  apply add_mono; [done..| |done|done|done].
  apply add_mono; done.
Qed.

Lemma avg4_ord a b c d :
  is_fin a = true -> is_fin b = true -> is_fin c = true -> is_fin d = true ->
  not_nan (avg4 a b c d) = true.
Proof.
  intros Ha Hb Hc Hd. unfold avg4.
  apply quarter_ord, add_ord; [|done]. apply add_ord; [|done]. by apply add_value.
Qed.

(** between two finite numbers there are only finite numbers *)

Lemma between_fin m M x :
  is_fin m = true -> is_fin M = true ->
  (m <=? x)%float = true -> (x <=? M)%float = true -> is_fin x = true.
Proof.
  rewrite !leb_value. intros Fm FM (_ & Ox & H1) (_ & _ & H2).
  destruct (classify_value m (fin_ord m Fm)) as [[_ ?]|[[E ?]|[E ?]]];
    [|unfold is_fin in Fm; by rewrite E in Fm..].
  destruct (classify_value M (fin_ord M FM)) as [[_ ?]|[[E ?]|[E ?]]];
    [|unfold is_fin in FM; by rewrite E in FM..].
  destruct (classify_value x Ox) as [[? _]|[[_ ?]|[_ ?]]]; [done|lia|lia].
Qed.

Lemma avg4_between m M a b c d :
  steady m -> steady M ->
  (m <=? a)%float = true -> (a <=? M)%float = true ->
  (m <=? b)%float = true -> (b <=? M)%float = true ->
  (m <=? c)%float = true -> (c <=? M)%float = true ->
  (m <=? d)%float = true -> (d <=? M)%float = true ->
  (m <=? avg4 a b c d)%float = true /\ (avg4 a b c d <=? M)%float = true.
Proof.
  intros [Fm Sm] [FM SM] ? ? ? ? ? ? ? ?.
  assert (is_fin a = true) by by apply (between_fin m M).
  assert (is_fin b = true) by by apply (between_fin m M).
  assert (is_fin c = true) by by apply (between_fin m M).
  assert (is_fin d = true) by by apply (between_fin m M).
  assert (Hlo : (avg4 m m m m <=? avg4 a b c d)%float = true)
    by (apply avg4_mono; try done; by apply avg4_ord).
  assert (Hhi : (avg4 a b c d <=? avg4 M M M M)%float = true)
    by (apply avg4_mono; try done; by apply avg4_ord).
  by rewrite Sm in Hlo; rewrite SM in Hhi.
Qed.

(** ** The sampler on the 60 x 60 grid *)

Lemma positions_60 c : lenX c = 60%nat -> positions c = Some positions60.
Proof. intros H. unfold positions, lenY. rewrite H. vm_compute. reflexivity. Qed.

Lemma at_get n m (T : Field) (y x : nat) :
  shaped n m T -> (y < n)%nat -> (x < m)%nat ->
  at_ T (Z.of_nat y) (Z.of_nat x) = get T y x.
Proof.
  intros HT Hy Hx. unfold at_, get, index. rewrite (proj1 HT).
  destruct (Z.leb_spec 0 (Z.of_nat y)); [|lia].
  destruct (Z.ltb_spec (Z.of_nat y) (Z.of_nat n)); [|lia]. simpl.
  rewrite !Nat2Z.id.
  destruct (T !! y) as [row|] eqn:Hrow; simpl; [|done].
  rewrite (shaped_row _ _ _ HT Hrow).
  destruct (Z.leb_spec 0 (Z.of_nat x)); [|lia].
  destruct (Z.ltb_spec (Z.of_nat x) (Z.of_nat m)); [|lia]. simpl.
  by rewrite ?Nat2Z.id.
Qed.

Lemma sample_60 (T : Field) :
  shaped 60 60 T ->
  exists a b c d,
    get T 30 5 = Some a /\ get T 54 30 = Some b /\
    get T 30 54 = Some c /\ get T 5 30 = Some d /\
    sample T positions60 = Some [a; b; c; d].
Proof.
  intros HT.
  destruct (get_is_Some T 30 5 HT) as [a Ha]; [lia..|].
  destruct (get_is_Some T 54 30 HT) as [b Hb]; [lia..|].
  destruct (get_is_Some T 30 54 HT) as [c Hc]; [lia..|].
  destruct (get_is_Some T 5 30 HT) as [d0 Hd]; [lia..|].
  exists a, b, c, d0. repeat (split; [done|]).
  unfold sample, positions60; simpl.
  change 30 with (Z.of_nat 30). change 5 with (Z.of_nat 5). change 54 with (Z.of_nat 54).
  rewrite !(at_get 60 60 T _ _ HT) by lia.
  by rewrite Ha, Hb, Hc, Hd.
Qed.

(** On the 60 x 60 grid a step of the sweep always yields its four samples. *)
Lemma concentrations_60 c K :
  lenX c = 60%nat ->
  exists T a b c' d,
    solve 60 60 K (init c) = Some T /\ shaped 60 60 T /\
    visited (concat (replicate (Z.to_nat K) (interior 60 60))) (init c) T /\
    get T 30 5 = Some a /\ get T 54 30 = Some b /\
    get T 30 54 = Some c' /\ get T 5 30 = Some d /\
    concentrations c K = Some [a; b; c'; d].
Proof.
  intros H60. pose proof (shaped_init c) as HI. unfold lenY in HI. rewrite H60 in HI.
  destruct (solve_visited K (init c) HI) as (T & HS & HT & HV).
  destruct (sample_60 T HT) as (a & b & c' & d0 & Ha & Hb & Hc & Hd & Hsam).
  exists T, a, b, c', d0. split_and!; try done.
  unfold concentrations, lenY. rewrite (positions_60 c H60), H60. simpl.
  rewrite HS. simpl. done.
Qed.

(** * The relaxation solver and the initialiser *)

(** C1: for a non-negative iteration count [K] the solver returns a field
    reached from the given one by relaxing, in place, the cells of [K]
    consecutive full passes over the interior, nothing ending the passes
    early.  A pass lists the interior cells [(1 + a, 1 + b)] with the first
    index outermost, both ascending; each visit reads the four neighbours
    from the field as it stands at that moment and writes
    [0.25 * (a + b + c + d)], computed in binary64, into the visited cell
    only. *)
Theorem solve_gauss_seidel (N : nat) (K : Z) (T : Field) :
  shaped N N T -> 0 <= K ->
  (exists T', solve N N K T = Some T' /\ shaped N N T' /\
              visited (concat (replicate (Z.to_nat K) (interior N N))) T T') /\
  length (concat (replicate (Z.to_nat K) (interior N N)))
  = (Z.to_nat K * ((N - 2) * (N - 2)))%nat /\
  (forall a b, (a < N - 2)%nat -> (b < N - 2)%nat ->
     interior N N !! (a * (N - 2) + b)%nat = Some (1 + a, 1 + b)%nat).
Proof.
  intros HT _. split; [by apply solve_visited|]. split.
  - induction (Z.to_nat K) as [|k IH]; simpl; [done|].
    rewrite length_app, IH, interior_length. lia.
  - apply interior_lookup.
Qed.

Lemma solve_gauss_seidel_witness :
  shaped 4 4 (init small) /\ 0 <= 2 /\
  exists T', solve 4 4 2 (init small) = Some T' /\ shaped 4 4 T' /\
             visited (concat (replicate 2 (interior 4 4))) (init small) T'.
Proof.
  assert (H : shaped 4 4 (init small)) by (split; [reflexivity|repeat constructor]).
  split; [exact H|]. split; [lia|].
  exact (proj1 (solve_gauss_seidel 4 2 (init small) H ltac:(lia))).
Defined.

(** C2: whatever the number of sweeps, the solver returns a field whose
    outermost rows and columns are cell for cell those of the initialised
    field; every cell it writes has both indices in [1 .. N-2]. *)
Theorem boundary_invariant (c : Config) (K : Z) :
  exists T' cells,
    solve (lenX c) (lenY c) K (init c) = Some T' /\
    visited cells (init c) T' /\
    (forall i j, (i, j) ∈ cells ->
       (1 <= i <= lenX c - 2)%nat /\ (1 <= j <= lenY c - 2)%nat) /\
    (forall i j, (i = 0 \/ i = lenX c - 1 \/ j = 0 \/ j = lenY c - 1)%nat ->
       get T' i j = get (init c) i j).
Proof.
  destruct (solve_visited K (init c) (shaped_init c)) as (T' & HS & HT' & HV).
  exists T', (concat (replicate (Z.to_nat K) (interior (lenX c) (lenY c)))).
  split; [done|]. split; [done|]. split.
  - intros i j Hin. apply elem_of_sweeps, elem_of_interior in Hin. lia.
  - intros i j Hb. apply (visited_frame _ _ _ _ _ HV).
    intros Hin. apply elem_of_sweeps, elem_of_interior in Hin. lia.
Qed.

(** C3 as the code has it: the initialiser yields an N x N field in which
    a cell of column 0 holds the left value, otherwise a cell of column N-1
    the right value, otherwise a cell of row 0 the bottom value, otherwise
    a cell of row N-1 the top value, and every other cell (indices 1 .. N-2
    on both axes) the guess.  The assignments run in the order top, bottom,
    right, left, and the last two span whole columns: at the two corners of
    column 0 the left value wins, at the two corners of column N-1 the
    right value wins over top and bottom. *)
Theorem init_cells (c : Config) (i j : nat) :
  shaped (lenX c) (lenX c) (init c) /\
  get (init c) i j =
  if (i <? lenX c)%nat && (j <? lenX c)%nat then
    Some (if (j =? 0)%nat then Tleft c
          else if (j =? lenX c - 1)%nat then Tright c
          else if (i =? 0)%nat then Tbottom c
          else if (i =? lenX c - 1)%nat then Ttop c
          else Tguess c)
  else None.
Proof. split; [apply shaped_init|apply get_init]. Qed.

(** C3 as stated fails: the left value does not win at the four corners.
    On the 4 x 4 grid with five different values the two corners of the
    last column hold the right value, 4, not the left one, 3. *)
Lemma right_value_at_corners :
  get (init small) 0 3 = Some (Tright small) /\
  get (init small) 3 3 = Some (Tright small) /\
  get (init small) 0 0 = Some (Tleft small) /\
  get (init small) 3 0 = Some (Tleft small) /\
  (Tright small =? Tleft small)%float = false.
Proof. repeat split; reflexivity. Qed.

(** C4: with no sweep the solver hands back the field it was given, so the
    initialised one; on the 60 x 60 grid the sample points are (5,30),
    (30,54), (54,30), (30,5), all interior, and the four samples are the
    guess value. *)
Theorem zero_sweeps (c : Config) :
  lenX c = 60%nat ->
  (forall T : Field, solve (lenX c) (lenY c) 0 T = Some T) /\
  positions c = Some positions60 /\
  concentrations c 0 = Some [Tguess c; Tguess c; Tguess c; Tguess c].
Proof.
  intros H60. split; [done|]. split; [by apply positions_60|].
  unfold concentrations. rewrite (positions_60 c H60). simpl.
  change (solve (lenX c) (lenY c) 0 (init c)) with (Some (init c)). simpl.
  pose proof (shaped_init c) as HI. unfold lenY in HI. rewrite H60 in HI.
  destruct (sample_60 _ HI) as (a & b & c' & d0 & Ha & Hb & Hc & Hd & ->).
  rewrite get_init, H60 in Ha, Hb, Hc, Hd. simpl in *. congruence.
Qed.

Lemma zero_sweeps_witness :
  lenX reference = 60%nat /\
  concentrations reference 0 = Some [0; 0; 0; 0]%float.
Proof.
  split; [reflexivity|]. exact (proj2 (proj2 (zero_sweeps reference eq_refl))).
Defined.

(** * Order and bounds of the relaxed field *)

Lemma visited_inv (P : Field -> Prop) cells T T' :
  P T ->
  (forall T i j T', (i, j) ∈ cells -> P T -> relaxed T i j T' -> P T') ->
  visited cells T T' -> P T'.
Proof.
  intros HP Hstep. revert T HP. induction cells as [|[i j] rest IH]; intros T HP; simpl.
  - by intros ->.
  - intros (T1 & HR & HV). apply (IH ltac:(intros; eapply Hstep; [by right|done..]) T1); [|done].
    eapply Hstep; [by left|done..].
Qed.

Lemma visited_app_inv cells1 cells2 T T' :
  visited (cells1 ++ cells2) T T' ->
  exists T1, visited cells1 T T1 /\ visited cells2 T1 T'.
Proof.
  revert T. induction cells1 as [|[i j] rest IH]; intros T; simpl.
  - intros H. by exists T.
  - intros (T0 & HR & HV). destruct (IH _ HV) as (T1 & H1 & H2).
    exists T1. split; [by exists T0|done].
Qed.

Lemma le_dir_not_nan up x y : le_dir up x y = true -> not_nan x = true /\ not_nan y = true.
Proof.
  unfold le_dir. destruct up; rewrite leb_value; intros (? & ? & _); done.
Qed.

Lemma avg4_mono_dir up a b c d a' b' c' d' :
  le_dir up a a' = true -> le_dir up b b' = true ->
  le_dir up c c' = true -> le_dir up d d' = true ->
  not_nan (avg4 a b c d) = true -> not_nan (avg4 a' b' c' d') = true ->
  le_dir up (avg4 a b c d) (avg4 a' b' c' d') = true.
Proof. unfold le_dir. destruct up; intros; by apply avg4_mono. Qed.

Lemma between_fin_dir up lo hi x :
  steady lo -> steady hi ->
  le_dir up lo x = true -> le_dir up x hi = true -> is_fin x = true.
Proof.
  intros [Flo _] [Fhi _]. unfold le_dir. destruct up; intros H1 H2.
  - by apply (between_fin lo hi).
  - by apply (between_fin hi lo).
Qed.

Lemma avg4_between_dir up lo hi a b c d :
  steady lo -> steady hi ->
  le_dir up lo a = true -> le_dir up a hi = true ->
  le_dir up lo b = true -> le_dir up b hi = true ->
  le_dir up lo c = true -> le_dir up c hi = true ->
  le_dir up lo d = true -> le_dir up d hi = true ->
  le_dir up lo (avg4 a b c d) = true /\ le_dir up (avg4 a b c d) hi = true.
Proof.
  unfold le_dir. destruct up; intros.
  - by apply avg4_between.
  - apply and_comm. by apply avg4_between.
Qed.

(** One update keeps the field between two steady bounds. *)
Lemma relaxed_within up lo hi T i j T' :
  steady lo -> steady hi -> within up lo hi T -> relaxed T i j T' -> within up lo hi T'.
Proof.
  intros Hlo Hhi HW (a & b & c & d0 & Ha & Hb & Hc & Hd & Hij & Hframe) i' j' x Hx.
  destruct (decide ((i', j') = (i, j))) as [[= -> ->]|Hne].
  - rewrite Hij in Hx. injection Hx as <-.
    destruct (HW _ _ _ Ha), (HW _ _ _ Hb), (HW _ _ _ Hc), (HW _ _ _ Hd).
    by apply avg4_between_dir.
  - rewrite Hframe in Hx by done. by apply (HW i' j').
Qed.

Lemma visited_within up lo hi cells T T' :
  steady lo -> steady hi -> within up lo hi T -> visited cells T T' -> within up lo hi T'.
Proof.
  intros Hlo Hhi HW. apply (visited_inv (within up lo hi)); [done|].
  intros T0 i j T0' _. by apply relaxed_within.
Qed.

Lemma init_values c i j x :
  get (init c) i j = Some x ->
  x ∈ [Tguess c; Ttop c; Tbottom c; Tleft c; Tright c].
Proof.
  rewrite get_init. destruct (_ && _); [|done]. intros [= <-].
  apply list_elem_of_In.
  repeat match goal with |- context [if ?b then _ else _] => destruct b end;
    simpl; tauto.
Qed.

Lemma init_within up lo hi c :
  (forall v, v ∈ [Tguess c; Ttop c; Tbottom c; Tleft c; Tright c] ->
     le_dir up lo v = true /\ le_dir up v hi = true) ->
  within up lo hi (init c).
Proof. intros H i j x Hx. apply H. by eapply init_values. Qed.

(** Two runs over the same cells keep their order. *)
Lemma relaxed_along up lo hi T1 T2 i j T1' T2' :
  steady lo -> steady hi -> within up lo hi T1 -> within up lo hi T2 ->
  along up T1 T2 -> relaxed T1 i j T1' -> relaxed T2 i j T2' -> along up T1' T2'.
Proof.
  intros Hlo Hhi W1 W2 HA
    (a1 & b1 & c1 & d1 & Ha1 & Hb1 & Hc1 & Hd1 & Hij1 & Hf1)
    (a2 & b2 & c2 & d2 & Ha2 & Hb2 & Hc2 & Hd2 & Hij2 & Hf2) i' j' x x' Hx Hx'.
  destruct (decide ((i', j') = (i, j))) as [[= -> ->]|Hne].
  - rewrite Hij1 in Hx. rewrite Hij2 in Hx'. injection Hx as <-. injection Hx' as <-.
    destruct (W1 _ _ _ Ha1), (W1 _ _ _ Hb1), (W1 _ _ _ Hc1), (W1 _ _ _ Hd1).
    destruct (W2 _ _ _ Ha2), (W2 _ _ _ Hb2), (W2 _ _ _ Hc2), (W2 _ _ _ Hd2).
    apply avg4_mono_dir; [by eapply HA..| |];
      apply avg4_ord; by apply (between_fin_dir up lo hi).
  - rewrite Hf1 in Hx by done. rewrite Hf2 in Hx' by done. by eapply HA.
Qed.

Lemma visited_along up lo hi cells T1 T2 T1' T2' :
  steady lo -> steady hi -> within up lo hi T1 -> within up lo hi T2 ->
  along up T1 T2 -> visited cells T1 T1' -> visited cells T2 T2' -> along up T1' T2'.
Proof.
  intros Hlo Hhi. revert T1 T2.
  induction cells as [|[i j] rest IH]; intros T1 T2 W1 W2 HA; simpl.
  - by intros -> ->.
  - intros (U1 & HR1 & HV1) (U2 & HR2 & HV2).
    apply (IH U1 U2); try done.
    + by apply (relaxed_within up lo hi T1 i j U1).
    + by apply (relaxed_within up lo hi T2 i j U2).
    + by apply (relaxed_along up lo hi T1 T2 i j U1 U2).
Qed.

Lemma init_interior c i j :
  (i, j) ∈ interior (lenX c) (lenY c) -> get (init c) i j = Some (Tguess c).
Proof.
  intros H. apply elem_of_interior in H. unfold lenY in H. rewrite get_init.
  destruct (Nat.ltb_spec i (lenX c)); [|lia].
  destruct (Nat.ltb_spec j (lenX c)); [|lia]. simpl.
  destruct (Nat.eqb_spec j 0); [lia|].
  destruct (Nat.eqb_spec j (lenX c - 1)); [lia|].
  destruct (Nat.eqb_spec i 0); [lia|].
  destruct (Nat.eqb_spec i (lenX c - 1)); [lia|]. done.
Qed.

Lemma le_dir_refl up x : not_nan x = true -> le_dir up x x = true.
Proof. intros H. unfold le_dir. destruct up; apply leb_value; (split; [done|split; [done|lia]]). Qed.

(** The sweeps never go back before the initial field. *)
Lemma sweeps_from_init up hi c k T :
  steady (Tguess c) -> steady hi -> within up (Tguess c) hi (init c) ->
  visited (concat (replicate k (interior (lenX c) (lenY c)))) (init c) T ->
  along up (init c) T.
Proof.
  intros Hg Hhi HW HV.
  assert (HP : along up (init c) T /\ within up (Tguess c) hi T); [|by destruct HP].
  revert HV. apply (visited_inv (fun T => along up (init c) T /\ within up (Tguess c) hi T)).
  - split; [|done]. intros i j x x' Hx Hx'. rewrite Hx in Hx'. injection Hx' as <-.
    apply le_dir_refl. destruct (HW _ _ _ Hx) as [H1 _].
    by apply le_dir_not_nan in H1 as [_ ?].
  - intros T0 i j T0' Hin [HA HW0] HR.
    split; [|by apply (relaxed_within up (Tguess c) hi T0 i j T0')].
    destruct HR as (a & b & c0 & d0 & Ha & Hb & Hc & Hd & Hij & Hf).
    intros i' j' x x' Hx Hx'.
    destruct (decide ((i', j') = (i, j))) as [[= -> ->]|Hne].
    + rewrite (init_interior c i j) in Hx by (by eapply elem_of_sweeps).
      injection Hx as <-. rewrite Hij in Hx'. injection Hx' as <-.
      destruct (HW0 _ _ _ Ha), (HW0 _ _ _ Hb), (HW0 _ _ _ Hc), (HW0 _ _ _ Hd).
      by apply (avg4_between_dir up (Tguess c) hi).
    + rewrite Hf in Hx' by done. by eapply HA.
Qed.

(** The sweeps never pass a solution that lies beyond the initial field. *)
Lemma sweeps_before_solution up lo hi c k T S :
  steady lo -> steady hi -> within up lo hi (init c) ->
  laplace (lenX c) (lenY c) S -> along up (init c) S ->
  visited (concat (replicate k (interior (lenX c) (lenY c)))) (init c) T ->
  along up T S.
Proof.
  intros Hlo Hhi HW [HS HL] HI HV.
  assert (HP : along up T S /\ within up lo hi T); [|by destruct HP].
  revert HV. apply (visited_inv (fun T => along up T S /\ within up lo hi T)); [done|].
  intros T0 i j T0' Hin [HA HW0] HR.
  split; [|by apply (relaxed_within up lo hi T0 i j T0')].
  apply elem_of_sweeps in Hin. pose proof (init_interior c i j Hin) as Hg.
  apply elem_of_interior in Hin as (? & ? & ? & ?).
  destruct (HL i j) as (a' & b' & c' & d' & Ha' & Hb' & Hc' & Hd' & Hij'); [done..|].
  destruct HR as (a & b & c0 & d0 & Ha & Hb & Hc & Hd & Hij & Hf).
  intros i' j' x x' Hx Hx'.
  destruct (decide ((i', j') = (i, j))) as [[= -> ->]|Hne].
  - rewrite Hij in Hx. injection Hx as <-. rewrite Hij' in Hx'. injection Hx' as <-.
    destruct (HW0 _ _ _ Ha), (HW0 _ _ _ Hb), (HW0 _ _ _ Hc), (HW0 _ _ _ Hd).
    apply avg4_mono_dir; [by eapply HA..| |].
    + apply avg4_ord; by apply (between_fin_dir up lo hi).
    + by destruct (le_dir_not_nan _ _ _ (HI _ _ _ _ Hg Hij')).
  - rewrite Hf in Hx by done. by eapply HA.
Qed.

Lemma sweeps_S {A} k (l : list A) :
  concat (replicate (S k) l) = l ++ concat (replicate k l).
Proof. reflexivity. Qed.

Lemma sweeps_1 {A} (l : list A) : concat (replicate 1 l) = l.
Proof. rewrite sweeps_S. apply app_nil_r. Qed.

Lemma ltb_value x y :
  (x <? y)%float = true <-> not_nan x = true /\ not_nan y = true /\ val x < val y.
Proof.
  rewrite FloatAxioms.ltb_spec. unfold SFltb, not_nan, val.
  pose proof (Prim_valid x) as Vx. pose proof (Prim_valid y) as Vy.
  destruct (ord_sf (Prim2SF x)) eqn:Ox.
  - destruct (ord_sf (Prim2SF y)) eqn:Oy.
    + rewrite SFcompare_value by (done || by apply ord_sf_nan).
      destruct (Z.compare_spec (SFV (Prim2SF x)) (SFV (Prim2SF y))); split;
        try done; try (intros (_ & _ & ?)); try lia; intros _; (split; [done|split; [done|lia]]).
    + replace (Prim2SF y) with S754_nan by (by destruct (Prim2SF y)).
      split; [by destruct (Prim2SF x)|by intros (_ & ? & _)].
  - replace (Prim2SF x) with S754_nan by (by destruct (Prim2SF x)).
    split; [done|by intros (? & _)].
Qed.

Lemma le_dir_trans up x y z :
  le_dir up x y = true -> le_dir up y z = true -> le_dir up x z = true.
Proof.
  unfold le_dir. destruct up; rewrite !leb_value;
    intros (? & ? & ?) (? & ? & ?); (split; [done|split; [done|lia]]).
Qed.

(** The sweeps never pass a field that lies beyond the initial one and that
    no update moves forward. *)
Lemma sweeps_before_barrier up lo hi c k T S :
  steady lo -> steady hi -> within up lo hi (init c) ->
  super up (lenX c) (lenY c) S -> along up (init c) S ->
  visited (concat (replicate k (interior (lenX c) (lenY c)))) (init c) T ->
  along up T S.
Proof.
  intros Hlo Hhi HW HL HI HV.
  assert (HP : along up T S /\ within up lo hi T); [|by destruct HP].
  revert HV. apply (visited_inv (fun T => along up T S /\ within up lo hi T)); [done|].
  intros T0 i j T0' Hin [HA HW0] HR.
  split; [|by apply (relaxed_within up lo hi T0 i j T0')].
  apply elem_of_sweeps, elem_of_interior in Hin as (? & ? & ? & ?).
  destruct (HL i j) as (a' & b' & c' & d' & x' & Ha' & Hb' & Hc' & Hd' & Hij' & Hle); [done..|].
  destruct HR as (a & b & c0 & d0 & Ha & Hb & Hc & Hd & Hij & Hf).
  intros i' j' x y Hx Hy.
  destruct (decide ((i', j') = (i, j))) as [[= -> ->]|Hne].
  - rewrite Hij in Hx. injection Hx as <-. rewrite Hij' in Hy. injection Hy as <-.
    destruct (HW0 _ _ _ Ha), (HW0 _ _ _ Hb), (HW0 _ _ _ Hc), (HW0 _ _ _ Hd).
    apply (le_dir_trans up _ (avg4 a' b' c' d')); [|done].
    apply avg4_mono_dir; [by eapply HA..| |].
    + apply avg4_ord; by apply (between_fin_dir up lo hi).
    + by destruct (le_dir_not_nan _ _ _ Hle).
  - rewrite Hf in Hx by done. by eapply HA.
Qed.

Lemma superb_super n m S : superb n m S = true -> super true n m S.
Proof.
  unfold superb. rewrite forallb_forall. intros H i j ? ? ? ?.
  specialize (H (i, j)). simpl in H.
  assert (Hin : In (i, j) (interior n m)) by (by apply list_elem_of_In, elem_of_interior).
  specialize (H Hin).
  destruct (get S (i + 1) j) as [a|]; [|done]. destruct (get S (i - 1) j) as [b|]; [|done].
  destruct (get S i (j + 1)) as [c|]; [|done]. destruct (get S i (j - 1)) as [d0|]; [|done].
  destruct (get S i j) as [x|]; [|done]. by exists a, b, c, d0, x.
Qed.

Lemma belowb_along n m T S : shaped n m T -> belowb n m T S = true -> along true T S.
Proof.
  unfold belowb. rewrite forallb_forall. intros HT H i j x y Hx Hy.
  destruct (get_lt T i j x HT Hx) as [Hi Hj].
  specialize (H i ltac:(apply in_seq; lia)). rewrite forallb_forall in H.
  specialize (H j ltac:(apply in_seq; lia)). by rewrite Hx, Hy in H.
Qed.

Lemma sweeps_S_end {A} k (l : list A) :
  concat (replicate (S k) l) = concat (replicate k l) ++ l.
Proof.
  induction k as [|k IH].
  - simpl. by rewrite app_nil_r.
  - rewrite sweeps_S, IH at 1. rewrite sweeps_S. by rewrite app_assoc.
Qed.

(** ** A uniform solution, and two initial fields side by side *)

Lemma laplace_uniform : laplace 60 60 (init uniform).
Proof.
  split; [apply (shaped_init uniform)|]. intros i j Hi1 Hi2 Hj1 Hj2.
  assert (H : forall i j, (i < 60)%nat -> (j < 60)%nat -> get (init uniform) i j = Some 100%float).
  { intros i' j' ??. rewrite get_init. simpl.
    destruct (Nat.ltb_spec i' 60); [|lia]. destruct (Nat.ltb_spec j' 60); [|lia]. simpl.
    by repeat match goal with |- context [if ?b then _ else _] => destruct b end. }
  exists 100%float, 100%float, 100%float, 100%float.
  rewrite !H by lia. done.
Qed.

Lemma init_along up c1 c2 :
  lenX c1 = lenX c2 ->
  le_dir up (Tguess c1) (Tguess c2) = true -> le_dir up (Ttop c1) (Ttop c2) = true ->
  le_dir up (Tbottom c1) (Tbottom c2) = true -> le_dir up (Tleft c1) (Tleft c2) = true ->
  le_dir up (Tright c1) (Tright c2) = true ->
  along up (init c1) (init c2).
Proof.
  intros E Hg Ht Hb Hl Hr i j x x'. rewrite !get_init, <- E.
  destruct (_ && _); [|done]. intros [= <-] [= <-].
  by repeat match goal with |- context [if ?b then _ else _] => destruct b end.
Qed.

(** * Values of the relaxed field *)

Lemma steady_0 : steady 0.
Proof. split; reflexivity. Qed.

Lemma steady_100 : steady 100.
Proof. split; reflexivity. Qed.

(** C10 as the code has it: when the guess and the four boundary values lie
    between two finite values [m] and [M] whose four-fold average is exact
    in binary64, [0.25 * (v + v + v + v) = v] (as it is unless the sum
    overflows), every cell of the field after any number of sweeps lies in
    [[m, M]]. *)
Theorem maximum_principle (c : Config) (K : Z) (m M : float) :
  steady m -> steady M ->
  (forall v, v ∈ [Tguess c; Ttop c; Tbottom c; Tleft c; Tright c] ->
     (m <=? v)%float = true /\ (v <=? M)%float = true) ->
  exists T, solve (lenX c) (lenY c) K (init c) = Some T /\
    forall i j x, get T i j = Some x ->
      (m <=? x)%float = true /\ (x <=? M)%float = true.
Proof.
  intros Hm HM Hv.
  destruct (solve_visited K (init c) (shaped_init c)) as (T & HS & _ & HV).
  exists T. split; [done|].
  apply (visited_within true m M _ _ _ Hm HM (init_within true m M c Hv) HV).
Qed.

Lemma maximum_principle_witness :
  steady 0 /\ steady 100 /\
  (forall v, v ∈ [Tguess reference; Ttop reference; Tbottom reference;
                  Tleft reference; Tright reference] ->
     (0 <=? v)%float = true /\ (v <=? 100)%float = true) /\
  exists T, solve 60 60 500 (init reference) = Some T /\
    forall i j x, get T i j = Some x ->
      (0 <=? x)%float = true /\ (x <=? 100)%float = true.
Proof.
  assert (H : forall v, v ∈ [Tguess reference; Ttop reference; Tbottom reference;
                             Tleft reference; Tright reference] ->
     (0 <=? v)%float = true /\ (v <=? 100)%float = true).
  { intros v Hv. apply list_elem_of_In in Hv. simpl in Hv.
    destruct Hv as [<-|[<-|[<-|[<-|[<-|[]]]]]]; split; reflexivity. }
  split; [exact steady_0|]. split; [exact steady_100|]. split; [exact H|].
  exact (maximum_principle reference 500 0 100 steady_0 steady_100 H).
Defined.

(** C10 as stated fails: with edges at 1e308 and the guess at 0 the first
    sweep already yields infinities, above the largest initial value. *)
Lemma overflow_leaves_interval :
  concentrations overflow 1 = Some [infinity; infinity; infinity; infinity] /\
  (infinity <=? 1e308)%float = false.
Proof. split; [vm_compute; reflexivity|reflexivity]. Qed.

(** C7 as the code has it, on the 60 x 60 grid.  Let the guess [g] and a
    bound be finite values whose four-fold average is exact in binary64,
    and let the four edge values lie between [g] and the bound, all on one
    side of [g] ([up]: all at or above it; otherwise all at or below it).
    Then from [K] to [K + 1] sweeps every sample moves in that direction or
    stays, and it never passes the value, at its point, of a binary64
    solution of the averaging equation lying on that side of the initial
    field.  The bound keeps the sums from overflowing, which the numeric
    semantics of the solver leaves out of scope. *)
Theorem monotone_convergence (up : bool) (c : Config) (bound : float) (K : Z) :
  lenX c = 60%nat -> 0 <= K ->
  steady (Tguess c) -> steady bound ->
  (forall v, v ∈ [Ttop c; Tbottom c; Tleft c; Tright c] ->
     le_dir up (Tguess c) v = true /\ le_dir up v bound = true) ->
  exists s s',
    concentrations c K = Some s /\ concentrations c (K + 1) = Some s' /\
    Forall2 (fun x y => le_dir up x y = true) s s' /\
    forall Sol, laplace 60 60 Sol -> along up (init c) Sol ->
      exists l, sample Sol positions60 = Some l /\
                Forall2 (fun x y => le_dir up x y = true) s' l.
Proof.
  intros H60 HK Hg Hb Hv.
  assert (HW : within up (Tguess c) bound (init c)).
  { apply init_within. intros v Hin. apply list_elem_of_In in Hin. simpl in Hin.
    destruct Hin as [<-|Hin].
    - assert (not_nan (Tguess c) = true) by (apply fin_ord, Hg).
      assert (HH : le_dir up (Tguess c) (Ttop c) = true /\ le_dir up (Ttop c) bound = true)
        by (apply Hv, list_elem_of_In; simpl; tauto).
      split; [by apply le_dir_refl|].
      destruct HH as [H1 H2]. unfold le_dir in *.
      destruct up; rewrite leb_value in *; destruct H1 as (? & ? & ?), H2 as (? & ? & ?);
        (split; [done|split; [done|lia]]).
    - apply Hv, list_elem_of_In. simpl. tauto. }
  destruct (concentrations_60 c K H60)
    as (T & a & b & c' & d0 & _ & _ & HV & Ha & Hb' & Hc & Hd & HC).
  destruct (concentrations_60 c (K + 1) H60)
    as (T' & a' & b' & c'' & d' & _ & HT' & HV' & Ha' & Hb'' & Hc' & Hd' & HC').
  replace (Z.to_nat (K + 1)) with (S (Z.to_nat K)) in HV' by lia.
  rewrite sweeps_S in HV'.
  destruct (visited_app_inv _ _ _ _ HV') as (T1 & HV1 & HV2).
  assert (E60 : interior 60 60 = interior (lenX c) (lenY c)) by (unfold lenY; by rewrite H60).
  assert (H01 : along up (init c) T1).
  { apply (sweeps_from_init up bound c 1 T1 Hg Hb HW).
    rewrite sweeps_1, <- E60. done. }
  assert (HW1 : within up (Tguess c) bound T1)
    by (by apply (visited_within up _ _ _ _ _ Hg Hb HW HV1)).
  pose proof (visited_along up _ _ _ _ _ _ _ Hg Hb HW HW1 H01 HV HV2) as HA.
  exists [a; b; c'; d0], [a'; b'; c''; d']. split; [done|]. split; [done|]. split.
  - repeat constructor; eapply HA; eauto.
  - intros Sol HL HI. pose proof (proj1 HL) as HS.
    destruct (sample_60 Sol HS) as (sa & sb & sc & sd & Hsa & Hsb & Hsc & Hsd & Hsam).
    exists [sa; sb; sc; sd]. split; [done|].
    assert (HB : along up T' Sol).
    { apply (sweeps_before_solution up (Tguess c) bound c (S (Z.to_nat K)) T' Sol); try done.
      - unfold lenY. by rewrite H60.
      - rewrite sweeps_S, <- E60. by apply visited_app with T1. }
    repeat constructor; eapply HB; eauto.
Qed.

Lemma monotone_convergence_witness :
  lenX reference = 60%nat /\ 0 <= 0 /\ steady (Tguess reference) /\ steady 100 /\
  (forall v, v ∈ [Ttop reference; Tbottom reference; Tleft reference; Tright reference] ->
     le_dir true (Tguess reference) v = true /\ le_dir true v 100 = true) /\
  laplace 60 60 (init uniform) /\ along true (init reference) (init uniform) /\
  exists s s' l,
    concentrations reference 0 = Some s /\ concentrations reference 1 = Some s' /\
    Forall2 (fun x y => le_dir true x y = true) s s' /\
    sample (init uniform) positions60 = Some l /\
    Forall2 (fun x y => le_dir true x y = true) s' l.
Proof.
  assert (H : forall v, v ∈ [Ttop reference; Tbottom reference; Tleft reference;
                             Tright reference] ->
     le_dir true (Tguess reference) v = true /\ le_dir true v 100 = true).
  { intros v Hv. apply list_elem_of_In in Hv. simpl in Hv.
    destruct Hv as [<-|[<-|[<-|[<-|[]]]]]; split; reflexivity. }
  assert (HA : along true (init reference) (init uniform))
    by (apply init_along; reflexivity).
  split; [reflexivity|]. split; [lia|]. split; [exact steady_0|].
  split; [exact steady_100|]. split; [exact H|].
  split; [exact laplace_uniform|]. split; [exact HA|].
  destruct (monotone_convergence true reference 100 0 eq_refl ltac:(lia) steady_0 steady_100 H)
    as (s & s' & H1 & H2 & H3 & H4).
  destruct (H4 (init uniform) laplace_uniform HA) as (l & H5 & H6).
  exists s, s', l. split; [exact H1|]. split; [exact H2|]. split; [exact H3|].
  split; [exact H5|exact H6].
Defined.

(** C7 as stated fails: the edges 100, 0, 100, 100 all have one sign, and
    with the guess at 50, between them, the sample at C falls below 50 with
    the first sweep and rises above 50 with the fifth: the sequence is not
    monotone, whatever the steady state. *)
Lemma guess_between_edges_turns :
  concentrations lukewarm 0 = Some [50; 50; 50; 50]%float /\
  concentrations lukewarm 1
  = Some [50.205761316872412; 50.000000000000242;
          49.999999999999766; 49.794238683127588]%float /\
  concentrations lukewarm 5
  = Some [52.993151324970206; 50.205761317435602;
          50.205761316309264; 47.006848675029794]%float /\
  (49.999999999999766 <? 50)%float = true /\
  (50 <? 50.205761316309264)%float = true.
Proof. split_and!; vm_compute; reflexivity. Qed.

(** C6 as the code has it, on the 60 x 60 grid: the four samples are equal,
    each being the guess, when there is no sweep at all, and after any
    number of sweeps when the four boundary values equal the guess [g] and
    [0.25 * (g + g + g + g) = g] in binary64. *)
Theorem equal_samples (c : Config) (K : Z) :
  lenX c = 60%nat ->
  K <= 0 \/
  (Ttop c = Tguess c /\ Tbottom c = Tguess c /\ Tleft c = Tguess c /\
   Tright c = Tguess c /\
   avg4 (Tguess c) (Tguess c) (Tguess c) (Tguess c) = Tguess c) ->
  concentrations c K = Some [Tguess c; Tguess c; Tguess c; Tguess c].
Proof.
  intros H60 Hcase.
  destruct (concentrations_60 c K H60)
    as (T & a & b & c' & d0 & _ & _ & HV & Ha & Hb & Hc & Hd & ->).
  assert (HI : forall i j, (i, j) ∈ [(30, 5); (54, 30); (30, 54); (5, 30)]%nat ->
                 get (init c) i j = Some (Tguess c)).
  { intros i j Hin. apply init_interior. unfold lenY. rewrite H60.
    apply list_elem_of_In in Hin. simpl in Hin.
    destruct Hin as [[= <- <-]|[[= <- <-]|[[= <- <-]|[[= <- <-]|[]]]]];
      apply elem_of_interior; lia. }
  assert (HT : forall i j, (i, j) ∈ [(30, 5); (54, 30); (30, 54); (5, 30)]%nat ->
                 get T i j = Some (Tguess c)).
  { destruct Hcase as [HK|(Et & Eb & El & Er & Eavg)].
    - replace (Z.to_nat K) with 0%nat in HV by lia. simpl in HV. by subst T.
    - intros i j Hin.
      assert (HP : forall i j x, get T i j = Some x -> x = Tguess c).
      { revert HV. apply (visited_inv (fun T => forall i j x, get T i j = Some x -> x = Tguess c)).
        - intros i0 j0 x Hx. apply init_values, list_elem_of_In in Hx. simpl in Hx.
          destruct Hx as [<-|[<-|[<-|[<-|[<-|[]]]]]]; congruence.
        - intros T0 i0 j0 T0' _ HP0 (a0 & b0 & c0 & d1 & Ha0 & Hb0 & Hc0 & Hd0 & Hij & Hf) i1 j1 x Hx.
          destruct (decide ((i1, j1) = (i0, j0))) as [[= -> ->]|Hne].
          + rewrite Hij in Hx. injection Hx as <-.
            by rewrite (HP0 _ _ _ Ha0), (HP0 _ _ _ Hb0), (HP0 _ _ _ Hc0), (HP0 _ _ _ Hd0).
          + rewrite Hf in Hx by done. by eapply HP0. }
      assert (Hfr : (i, j) ∉ concat (replicate (Z.to_nat K) (interior 60 60)) \/
                    (i, j) ∈ interior 60 60).
      { right. apply list_elem_of_In in Hin. simpl in Hin.
        destruct Hin as [[= <- <-]|[[= <- <-]|[[= <- <-]|[[= <- <-]|[]]]]];
          apply elem_of_interior; lia. }
      pose proof (HI i j Hin) as Hinit.
      destruct (get T i j) as [x|] eqn:Hx.
      + by rewrite (HP _ _ _ Hx).
      + apply list_elem_of_In in Hin. simpl in Hin.
        destruct Hin as [[= <- <-]|[[= <- <-]|[[= <- <-]|[[= <- <-]|[]]]]]; congruence. }
  rewrite HT in Ha, Hb, Hc, Hd by (apply list_elem_of_In; simpl; tauto).
  congruence.
Qed.

Lemma equal_samples_witness :
  lenX uniform = 60%nat /\
  (7 <= 0 \/
   (Ttop uniform = Tguess uniform /\ Tbottom uniform = Tguess uniform /\
    Tleft uniform = Tguess uniform /\ Tright uniform = Tguess uniform /\
    avg4 (Tguess uniform) (Tguess uniform) (Tguess uniform) (Tguess uniform)
    = Tguess uniform)) /\
  concentrations uniform 7 = Some [100; 100; 100; 100]%float.
Proof.
  assert (H : 7 <= 0 \/
   (Ttop uniform = Tguess uniform /\ Tbottom uniform = Tguess uniform /\
    Tleft uniform = Tguess uniform /\ Tright uniform = Tguess uniform /\
    avg4 (Tguess uniform) (Tguess uniform) (Tguess uniform) (Tguess uniform)
    = Tguess uniform)).
  { right. repeat split; reflexivity. }
  split; [reflexivity|]. split; [exact H|].
  exact (equal_samples uniform 7 eq_refl H).
Defined.

(** C6 as stated fails: with the four edges at 100 and the guess at 0, one
    sweep in ascending order leaves the samples A and D far above B and C. *)
Lemma equal_edges_unequal_samples :
  concentrations equal_edges 1
  = Some [0.41152263374487436; 4.856935749635709e-13;
          4.856935749635709e-13; 0.41152263374487436]%float /\
  (0.41152263374487436 =? 4.856935749635709e-13)%float = false.
Proof. split; [vm_compute; reflexivity|reflexivity]. Qed.

(** C5: with the constants of the source (N = 60, top 100, bottom 0, left
    100, right 100, guess 0) the sample points are (5,30), (30,54), (54,30),
    (30,5), read as [T[y, x]], and after 500 sweeps each of the four samples
    is strictly greater than 0 and strictly less than 100: it is at least
    the positive sample after one sweep, and at most the value of a field
    below 100 that no update raises. *)
Theorem reference_500 :
  positions reference = Some positions60 /\
  exists a b c d,
    concentrations reference 500 = Some [a; b; c; d] /\
    Forall (fun x => (0 <? x)%float = true /\ (x <? 100)%float = true) [a; b; c; d].
Proof.
  split; [reflexivity|].
  assert (HW : within true 0 100 (init reference)).
  { apply init_within. intros v Hv. apply list_elem_of_In in Hv. simpl in Hv.
    destruct Hv as [<-|[<-|[<-|[<-|[<-|[]]]]]]; split; reflexivity. }
  destruct (concentrations_60 reference 500 eq_refl)
    as (T & a & b & c & d0 & _ & _ & HV & Ha & Hb & Hc & Hd & HC).
  destruct (concentrations_60 reference 1 eq_refl)
    as (T1 & a1 & b1 & c1 & d1 & _ & _ & HV1 & Ha1 & Hb1 & Hc1 & Hd1 & HC1).
  exists a, b, c, d0. split; [done|].
  (* from below: the samples after one sweep *)
  assert (E1 : concentrations reference 1
               = Some [0.41152263374485043; 4.8569357496187736e-13;
                       1.6926741887204423e-24; 2.3844316278387456e-14]%float)
    by (vm_compute; reflexivity).
  rewrite E1 in HC1. injection HC1 as <- <- <- <-.
  change (Z.to_nat 500) with (S 499) in HV. rewrite sweeps_S_end in HV.
  destruct (visited_app_inv _ _ _ _ HV) as (T499 & HV499 & HVlast).
  change (Z.to_nat 1) with 1%nat in HV1. rewrite sweeps_1 in HV1.
  assert (H0 : along true (init reference) T499)
    by (by apply (sweeps_from_init true 100 reference 499 T499 steady_0 steady_100 HW)).
  assert (HW499 : within true 0 100 T499)
    by (by apply (visited_within true _ _ _ _ _ steady_0 steady_100 HW HV499)).
  pose proof (visited_along true _ _ _ _ _ _ _ steady_0 steady_100 HW HW499 H0 HV1 HVlast) as Hlow.
  (* from above: the barrier *)
  assert (Hhigh : along true T barrier).
  { apply (sweeps_before_barrier true 0 100 reference 500 T barrier steady_0 steady_100 HW).
    - apply superb_super. vm_compute. reflexivity.
    - apply (belowb_along 60 60); [apply (shaped_init reference)|]. vm_compute. reflexivity.
    - rewrite sweeps_S_end. by apply visited_app with T499. }
  assert (Hb4 : get barrier 30 5 = Some 99.980806870807882%float /\
                get barrier 54 30 = Some 99.999739305753337%float /\
                get barrier 30 54 = Some 99.980806870807882%float /\
                get barrier 5 30 = Some 83.629850704186779%float)
    by (repeat split; vm_compute; reflexivity).
  destruct Hb4 as (B1 & B2 & B3 & B4).
  pose proof (Hlow _ _ _ _ Ha1 Ha) as La. pose proof (Hlow _ _ _ _ Hb1 Hb) as Lb.
  pose proof (Hlow _ _ _ _ Hc1 Hc) as Lc. pose proof (Hlow _ _ _ _ Hd1 Hd) as Ld.
  pose proof (Hhigh _ _ _ _ Ha B1) as Ua. pose proof (Hhigh _ _ _ _ Hb B2) as Ub.
  pose proof (Hhigh _ _ _ _ Hc B3) as Uc. pose proof (Hhigh _ _ _ _ Hd B4) as Ud.
  unfold le_dir in *.
  assert (Hlt : forall lo x hi, (0 <? lo)%float = true -> (hi <? 100)%float = true ->
             (lo <=? x)%float = true -> (x <=? hi)%float = true ->
             (0 <? x)%float = true /\ (x <? 100)%float = true).
  { intros lo x hi. rewrite !ltb_value, !leb_value.
    intros (? & ? & ?) (? & ? & ?) (? & ? & ?) (? & ? & ?).
    split; (split; [done|split; [done|lia]]). }
  constructor; [|constructor; [|constructor; [|constructor; [|constructor]]]].
  - apply (fun p q => Hlt _ _ _ p q La Ua); reflexivity.
  - apply (fun p q => Hlt _ _ _ p q Lb Ub); reflexivity.
  - apply (fun p q => Hlt _ _ _ p q Lc Uc); reflexivity.
  - apply (fun p q => Hlt _ _ _ p q Ld Ud); reflexivity.
Qed.

(** * The sweep driver *)

Lemma range_up_lookup fuel s0 st (k : nat) n :
  range_up fuel s0 st !! k = Some n <-> (k < fuel)%nat /\ n = s0 + Z.of_nat k * st.
Proof.
  revert s0 k. induction fuel as [|f IH]; intros s0 k; simpl.
  - split; [done|lia].
  - destruct k as [|k]; simpl.
    + split; [intros [= <-]; lia|intros [_ ->]; f_equal; lia].
    + rewrite IH. split; intros [? ->]; (split; [lia|lia]).
Qed.

Lemma py_range_up s0 e st :
  0 < st ->
  exists ns, py_range s0 (e + 1) st = Some ns /\
    forall (k : nat) n, ns !! k = Some n <-> n = s0 + Z.of_nat k * st /\ n <= e.
Proof.
  intros Hst. unfold py_range.
  destruct (Z.eqb_spec st 0) as [?|Hne]; [lia|].
  destruct (Z.ltb_spec 0 st) as [Hlt|?]; [|lia].
  eexists. split; [done|]. intros k n. rewrite range_up_lookup.
  set (q := (e + 1 - s0 + st - 1) / st).
  assert (Hq : forall z, z < q <-> s0 + z * st <= e).
  { intros z. unfold q. split; intros Hz.
    - assert (z + 1 <= (e + 1 - s0 + st - 1) / st) as H1 by lia.
      pose proof (Z.mul_div_le (e + 1 - s0 + st - 1) st Hst). nia.
    - assert (z + 1 <= (e + 1 - s0 + st - 1) / st); [|lia].
      apply Z.div_le_lower_bound; [done|]. nia. }
  split.
  - intros [Hk ->]. split; [done|]. apply Hq. lia.
  - intros [-> Hle]. split; [|done]. apply Hq in Hle. lia.
Qed.

(** ** The plotting calls on finite fields *)

Lemma plot_finite_within lo hi (T : Field) :
  steady lo -> steady hi -> within true lo hi T -> plot_finite T = Some tt.
Proof.
  intros Hlo Hhi HW. unfold plot_finite.
  replace (forallb (forallb is_fin) T) with true; [done|]. symmetry.
  apply forallb_forall. intros row Hrow. apply forallb_forall. intros x Hx.
  apply list_elem_of_In, list_elem_of_lookup in Hrow as [i Hi].
  apply list_elem_of_In, list_elem_of_lookup in Hx as [j Hj].
  destruct (HW i j x) as [H1 H2]; [unfold get; rewrite Hi; simpl; done|].
  by apply (between_fin_dir true lo hi).
Qed.

Lemma plots_finite lo hi c :
  steady lo -> steady hi ->
  (forall v, v ∈ [Tguess c; Ttop c; Tbottom c; Tleft c; Tright c] ->
     (lo <=? v)%float = true /\ (v <=? hi)%float = true) ->
  plots plot_finite c.
Proof.
  intros Hlo Hhi Hv n T HS.
  destruct (solve_visited n (init c) (shaped_init c)) as (T' & HS' & _ & HV).
  rewrite HS in HS'. injection HS' as <-.
  apply (plot_finite_within lo hi); [done..|].
  apply (visited_within true lo hi _ _ _ Hlo Hhi (init_within true lo hi c Hv) HV).
Qed.

Lemma plots_reference : plots plot_finite reference.
Proof.
  apply (plots_finite 0 100); [exact steady_0|exact steady_100|].
  intros v Hv. apply list_elem_of_In in Hv. simpl in Hv.
  destruct Hv as [<-|[<-|[<-|[<-|[<-|[]]]]]]; split; reflexivity.
Qed.

Lemma plots_descending : plots plot_finite descending.
Proof.
  apply (plots_finite 0 100); [exact steady_0|exact steady_100|].
  intros v Hv. apply list_elem_of_In in Hv. simpl in Hv.
  destruct Hv as [<-|[<-|[<-|[<-|[<-|[]]]]]]; split; reflexivity.
Qed.

(** ** The sweep on the 60 x 60 grid *)

Lemma step_60 plot c s n :
  lenX c = 60%nat -> plots plot c ->
  exists r, row_of c n r /\
    step plot c s n = Some {| data := data s ++ [r]; files := files s ++ [SaveFig n] |}.
Proof.
  intros H60 Hplot.
  destruct (concentrations_60 c n H60)
    as (T & a & b & c' & d0 & HS & _ & _ & Ha & Hb & Hc & Hd & HC).
  assert (HS' : solve (lenX c) (lenY c) n (init c) = Some T)
    by (unfold lenY; by rewrite H60).
  exists (n, [a; b; c'; d0]). split.
  - exists T, a, b, c', d0. split_and!; done.
  - unfold concentrations in HC. rewrite (positions_60 c H60) in HC. simpl in HC.
    rewrite HS' in HC. simpl in HC.
    unfold step. rewrite (positions_60 c H60). simpl. rewrite HS'. simpl.
    rewrite (Hplot n T HS'). simpl. by rewrite HC.
Qed.

Lemma steps_60 plot c ns s :
  lenX c = 60%nat -> plots plot c ->
  exists rows, Forall2 (row_of c) ns rows /\
    for_each ns (step plot c) s
    = Some {| data := data s ++ rows; files := files s ++ (SaveFig <$> ns) |}.
Proof.
  intros H60 Hplot. revert s. induction ns as [|n ns IH]; intros s.
  - exists []. split; [constructor|]. simpl. rewrite !app_nil_r. by destruct s.
  - destruct (step_60 plot c s n H60 Hplot) as (r & Hr & Hstep).
    destruct (IH {| data := data s ++ [r]; files := files s ++ [SaveFig n] |})
      as (rows & Hrows & Hfor).
    exists (r :: rows). split; [by constructor|].
    simpl. rewrite Hstep. simpl. rewrite Hfor. simpl.
    by rewrite <- !app_assoc.
Qed.

Lemma program_60 plot h c :
  lenX c = 60%nat -> 0 < d c -> PrimFloat.eqb (pore_size h) 0 = false ->
  plots plot c ->
  exists ns rows,
    py_range (start c) (end_ c + 1) (d c) = Some ns /\
    (forall (k : nat) n,
       ns !! k = Some n <-> n = start c + Z.of_nat k * d c /\ n <= end_ c) /\
    Forall2 (row_of c) ns rows /\
    program plot h c = Some {| data := rows; files := (SaveFig <$> ns) ++ [SaveTxt rows] |}.
Proof.
  intros H60 Hd Hp Hplot.
  destruct (py_range_up (start c) (end_ c) (d c) Hd) as (ns & Hns & Hseq).
  destruct (steps_60 plot c ns {| data := []; files := [] |} H60 Hplot)
    as (rows & Hrows & Hfor).
  exists ns, rows. split; [done|]. split; [done|]. split; [done|].
  unfold program, de, py_div. rewrite Hp. simpl. rewrite Hns. simpl.
  rewrite Hfor. simpl. done.
Qed.

(** C8: on the 60 x 60 grid, with a positive step, a pore size for which
    the constrictivity is defined and plotting calls that accept the field of
    every count, the program runs to its end.  The counts are
    [start + k * d] for [k = 0, 1, ...] as long as they do not exceed [end]
    (0, 20, ..., 500 for the constants of the source); each count [n]
    contributes one row, holding [n] and the four cells [T[30][5]],
    [T[54][30]], [T[30][54]], [T[5][30]] of a field initialised afresh and
    swept [n] times; the rows are kept in the order of the counts; one image
    is saved per count and the table of all rows is written once, last. *)
Theorem sweep_driver (plot : Field -> option unit) (h : Hydrogel) (c : Config) :
  lenX c = 60%nat -> 0 < d c -> PrimFloat.eqb (pore_size h) 0 = false ->
  plots plot c ->
  (exists ns rows,
    py_range (start c) (end_ c + 1) (d c) = Some ns /\
    (forall (k : nat) n,
       ns !! k = Some n <-> n = start c + Z.of_nat k * d c /\ n <= end_ c) /\
    Forall2 (row_of c) ns rows /\
    program plot h c
    = Some {| data := rows; files := (SaveFig <$> ns) ++ [SaveTxt rows] |}) /\
  py_range (start reference) (end_ reference + 1) (d reference)
  = Some [0; 20; 40; 60; 80; 100; 120; 140; 160; 180; 200; 220; 240; 260;
          280; 300; 320; 340; 360; 380; 400; 420; 440; 460; 480; 500].
Proof. intros H60 Hd Hp Hplot. split; [by apply program_60|reflexivity]. Qed.

Lemma sweep_driver_witness :
  lenX reference = 60%nat /\ 0 < d reference /\
  PrimFloat.eqb (pore_size hydrogel) 0 = false /\
  plots plot_finite reference /\
  exists ns rows,
    py_range 0 501 20 = Some ns /\ Forall2 (row_of reference) ns rows /\
    program plot_finite hydrogel reference
    = Some {| data := rows; files := (SaveFig <$> ns) ++ [SaveTxt rows] |}.
Proof.
  split; [reflexivity|]. split; [reflexivity|]. split; [reflexivity|].
  split; [exact plots_reference|].
  destruct (proj1 (sweep_driver plot_finite hydrogel reference eq_refl eq_refl eq_refl
                     plots_reference))
    as (ns & rows & H1 & _ & H3 & H4).
  exists ns, rows. split; [exact H1|]. split; [exact H3|exact H4].
Defined.

(** C9 as the code has it: the hydrogel parameters are read once, to
    compute the constrictivity [de = drug_size/pore_size]; for two
    assignments whose pore size is not zero the program yields the same
    sweep record and the same files, whatever the plotting calls do. *)
Theorem hydrogel_noninterference (plot : Field -> option unit) (h1 h2 : Hydrogel)
  (c : Config) :
  PrimFloat.eqb (pore_size h1) 0 = false ->
  PrimFloat.eqb (pore_size h2) 0 = false ->
  program plot h1 c = program plot h2 c.
Proof. intros H1 H2. unfold program, de, py_div. by rewrite H1, H2. Qed.

Lemma hydrogel_noninterference_witness :
  PrimFloat.eqb (pore_size hydrogel) 0 = false /\
  PrimFloat.eqb (pore_size other_gel) 0 = false /\
  program plot_finite hydrogel reference = program plot_finite other_gel reference.
Proof.
  split; [reflexivity|]. split; [reflexivity|].
  exact (hydrogel_noninterference plot_finite hydrogel other_gel reference eq_refl eq_refl).
Defined.

(** C9 as stated fails: with a zero pore size the division raises and the
    program yields nothing, whereas it runs to its end with the values of
    the source. *)
Lemma zero_pore_size_interferes :
  program plot_finite clogged reference = None /\
  program plot_finite hydrogel reference <> program plot_finite clogged reference.
Proof.
  assert (H0 : program plot_finite clogged reference = None) by reflexivity.
  split; [exact H0|]. rewrite H0.
  destruct (program_60 plot_finite hydrogel reference eq_refl eq_refl eq_refl plots_reference)
    as (ns & rows & _ & _ & _ & ->).
  discriminate.
Qed.

(** * Further properties of the program *)

(** ** Loops that leave the state alone *)

Lemma for_each_id {A S : Type} (xs : list A) (body : S -> A -> option S) s :
  (forall x, x ∈ xs -> body s x = Some s) -> for_each xs body s = Some s.
Proof.
  induction xs as [|x xs IH]; intros H; simpl; [done|].
  rewrite H by (by left). simpl. apply IH. intros y Hy. apply H. by right.
Qed.

Lemma for_each_length {A B S : Type} (xs : list A) (ys : list B) (f : S -> option S) s :
  length xs = length ys ->
  for_each xs (fun s _ => f s) s = for_each ys (fun s _ => f s) s.
Proof.
  revert ys s. induction xs as [|x xs IH]; intros [|y ys] s Hl; simpl in *; try done.
  destruct (f s); simpl; [|done]. apply IH. lia.
Qed.

Lemma solve_fixed lX lY K (T : Field) : sweep lX lY T = Some T -> solve lX lY K T = Some T.
Proof. intros H. unfold solve. apply for_each_id. by intros. Qed.

Lemma set_same (T : Field) i j v : get T i j = Some v -> set T i j v = Some T.
Proof.
  unfold get, set. destruct (T !! i) as [row|] eqn:Hrow; simpl; [|done].
  intros Hj. rewrite Hj. simpl. f_equal.
  rewrite (list_insert_id row j v Hj). by apply list_insert_id.
Qed.

Lemma laplace_sweep n m (Sol : Field) : laplace n m Sol -> sweep n m Sol = Some Sol.
Proof.
  intros [HS HL]. unfold sweep. apply for_each_id. intros i Hi.
  pose proof (irange_interior n) as Hn. rewrite Forall_forall in Hn.
  destruct (Hn i Hi) as [Hi1 Hi2].
  unfold sweep_row. apply for_each_id. intros j Hj.
  pose proof (irange_interior m) as Hm. rewrite Forall_forall in Hm.
  destruct (Hm j Hj) as [Hj1 Hj2].
  destruct (HL i j) as (a & b & c & d0 & Ha & Hb & Hc & Hd & Hij); [done..|].
  unfold relax. rewrite Ha, Hb, Hc, Hd. simpl. by apply set_same.
Qed.

(** ** The order of the visits *)

Lemma interior_lookup_inv n m p i j :
  interior n m !! p = Some (i, j) ->
  p = ((i - 1) * (m - 2) + (j - 1))%nat /\
  (1 <= i)%nat /\ (i + 1 < n)%nat /\ (1 <= j)%nat /\ (j + 1 < m)%nat.
Proof.
  intros Hp. pose proof (lookup_lt_Some _ _ _ Hp) as Hlt.
  rewrite interior_length in Hlt.
  assert (Hm : (0 < m - 2)%nat) by nia.
  pose proof (Nat.div_mod p (m - 2) ltac:(lia)) as Hdm.
  pose proof (Nat.mod_upper_bound p (m - 2) ltac:(lia)) as Hb.
  assert (Ha : (p / (m - 2) < n - 2)%nat).
  { apply Nat.Div0.div_lt_upper_bound. nia. }
  pose proof (interior_lookup n m _ _ Ha Hb) as Hl.
  replace (p / (m - 2) * (m - 2) + p mod (m - 2))%nat with p in Hl by lia.
  rewrite Hp in Hl. injection Hl as -> ->. split; [|lia].
  replace (1 + p / (m - 2) - 1)%nat with (p / (m - 2))%nat by lia.
  replace (1 + p mod (m - 2) - 1)%nat with (p mod (m - 2))%nat by lia. lia.
Qed.

Lemma interior_order n m p q c c' :
  interior n m !! p = Some c -> interior n m !! q = Some c' -> (p < q)%nat -> lexlt c c'.
Proof.
  destruct c as [i j], c' as [i' j']. intros Hp Hq Hlt.
  apply interior_lookup_inv in Hp as (-> & ? & ? & ? & ?).
  apply interior_lookup_inv in Hq as (-> & ? & ? & ? & ?).
  unfold lexlt. simpl.
  destruct (decide (i < i')%nat); [by left|right].
  destruct (decide (i = i')) as [->|]; [split; [done|nia]|].
  exfalso. assert (i' + 1 <= i)%nat by lia. nia.
Qed.

Lemma interior_split n m before c after :
  interior n m = before ++ c :: after ->
  (forall x, x ∈ before -> lexlt x c) /\ (forall x, x ∈ after -> lexlt c x).
Proof.
  intros E.
  assert (Hc : interior n m !! length before = Some c).
  { rewrite E. by rewrite list_lookup_middle. }
  split; intros x Hx; apply list_elem_of_lookup in Hx as [p Hp].
  - apply (interior_order n m p (length before)); [|done|by eapply lookup_lt_Some].
    rewrite E. by rewrite lookup_app_l by (by eapply lookup_lt_Some).
  - apply (interior_order n m (length before) (length before + S p)); [done| |lia].
    rewrite E. rewrite lookup_app_r by lia.
    replace (length before + S p - length before)%nat with (S p) by lia. done.
Qed.

(** ** The solver composes *)

(** X1: sweeps compose.  For non-negative counts, [K1 + K2] sweeps of any
    field are [K1] sweeps followed by [K2] sweeps of the result, and they
    raise when the first run raises: a pass keeps no state besides the
    field, so the run of count [n + d] on a fresh field continues the run
    of count [n]. *)
Theorem solve_compose (lX lY : nat) (K1 K2 : Z) (T : Field) :
  0 <= K1 -> 0 <= K2 ->
  solve lX lY (K1 + K2) T = solve lX lY K1 T ≫= solve lX lY K2.
Proof.
  intros H1 H2. unfold solve, irange. rewrite !Nat.sub_0_r.
  rewrite Z2Nat.inj_add by done. rewrite seq_app, for_each_app.
  destruct (for_each (seq 0 (Z.to_nat K1)) _ T) as [T1|]; simpl; [|done].
  apply (for_each_length _ _ (sweep lX lY)). by rewrite !length_seq.
Qed.

Lemma solve_compose_witness :
  0 <= 1 /\ 0 <= 2 /\
  solve 4 4 (1 + 2) (init small) = solve 4 4 1 (init small) ≫= solve 4 4 2.
Proof.
  split; [lia|]. split; [lia|].
  exact (solve_compose 4 4 1 2 (init small) ltac:(lia) ltac:(lia)).
Defined.

(** X2: one pass leaves a well-shaped field unchanged exactly when the
    field satisfies the averaging equation, in binary64, at every interior
    cell. *)
Theorem sweep_fixpoint (n m : nat) (Sol : Field) :
  shaped n m Sol -> (sweep n m Sol = Some Sol <-> laplace n m Sol).
Proof.
  intros HS. split; [|apply laplace_sweep].
  intros Hsw. split; [done|]. intros i j Hi1 Hi2 Hj1 Hj2.
  destruct (sweep_visited Sol HS) as (T' & Hsw' & _ & HV).
  rewrite Hsw in Hsw'. injection Hsw' as <-.
  assert (Hin : (i, j) ∈ interior n m) by (by apply elem_of_interior).
  apply list_elem_of_split in Hin as (before & after & E).
  destruct (interior_split n m before (i, j) after E) as [Hbef Haft].
  rewrite E in HV. apply visited_app_inv in HV as (U & HV1 & HV2).
  simpl in HV2. destruct HV2 as (V & HR & HV3).
  destruct HR as (a & b & c & d0 & Ha & Hb & Hc & Hd & Hij & Hf).
  assert (Hnb : forall x, lexlt (i, j) x -> x ∉ before).
  { intros x Hx Hin. apply Hbef in Hin. unfold lexlt in *. simpl in *. lia. }
  assert (Hna : forall x, lexlt x (i, j) -> x ∉ after).
  { intros x Hx Hin. apply Haft in Hin. unfold lexlt in *. simpl in *. lia. }
  assert (Hij' : (i, j) ∉ after).
  { intros Hin. apply Haft in Hin. unfold lexlt in *. simpl in *. lia. }
  (* the cells after (i, j) are read as they were, those before as they stay *)
  assert (Hlate : forall i' j', lexlt (i, j) (i', j') -> get U i' j' = get Sol i' j').
  { intros i' j' Hl. apply (visited_frame _ _ _ _ _ HV1). by apply Hnb. }
  assert (Hearly : forall i' j', lexlt (i', j') (i, j) -> get U i' j' = get Sol i' j').
  { intros i' j' Hl. symmetry.
    rewrite (visited_frame _ _ _ _ _ HV3) by (by apply Hna).
    apply Hf. intros [= -> ->]. unfold lexlt in Hl. simpl in Hl. lia. }
  exists a, b, c, d0.
  rewrite <- Hlate by (unfold lexlt; simpl; lia).
  rewrite <- Hearly by (unfold lexlt; simpl; lia).
  rewrite <- (Hlate i (j + 1)%nat) by (unfold lexlt; simpl; lia).
  rewrite <- (Hearly i (j - 1)%nat) by (unfold lexlt; simpl; lia).
  split_and!; try done.
  rewrite (visited_frame _ _ _ _ _ HV3) by done. apply Hij.
Qed.

Lemma sweep_fixpoint_witness :
  shaped 60 60 (init uniform) /\ sweep 60 60 (init uniform) = Some (init uniform).
Proof.
  split; [exact (shaped_init uniform)|].
  exact (proj2 (sweep_fixpoint 60 60 (init uniform) (shaped_init uniform)) laplace_uniform).
Defined.

(** X3: a field that satisfies the averaging equation at every interior
    cell is returned unchanged by the solver, whatever the number of
    sweeps. *)
Theorem solve_solution (n m : nat) (K : Z) (Sol : Field) :
  laplace n m Sol -> solve n m K Sol = Some Sol.
Proof. intros H. by apply solve_fixed, laplace_sweep. Qed.

Lemma solve_solution_witness :
  laplace 60 60 (init uniform) /\ solve 60 60 500 (init uniform) = Some (init uniform).
Proof.
  split; [exact laplace_uniform|].
  exact (solve_solution 60 60 500 (init uniform) laplace_uniform).
Defined.

(** X4: when a side of the grid is at most 2, [range(1, lenX-1)] or
    [range(1, lenY-1)] is empty: the solver returns the field it was given,
    whatever its contents and the number of sweeps, and never reads it. *)
Theorem solve_small_grid (lX lY : nat) (K : Z) (T : Field) :
  (lX <= 2)%nat \/ (lY <= 2)%nat -> solve lX lY K T = Some T.
Proof.
  intros H. apply solve_fixed. unfold sweep. apply for_each_id. intros i Hi.
  unfold irange in Hi. apply list_elem_of_In, in_seq in Hi.
  unfold sweep_row. apply for_each_id. intros j Hj.
  unfold irange in Hj. apply list_elem_of_In, in_seq in Hj. lia.
Qed.

Lemma solve_small_grid_witness :
  ((2 <= 2)%nat \/ (2 <= 2)%nat) /\
  solve 2 2 500 [[1; 2]; [3; 4]]%float = Some [[1; 2]; [3; 4]]%float.
Proof.
  assert (H : (2 <= 2)%nat \/ (2 <= 2)%nat) by (left; lia).
  split; [exact H|]. exact (solve_small_grid 2 2 500 _ H).
Defined.

(** ** Two runs side by side *)

Lemma guess_within up c bound :
  steady (Tguess c) ->
  (forall v, v ∈ [Ttop c; Tbottom c; Tleft c; Tright c] ->
     le_dir up (Tguess c) v = true /\ le_dir up v bound = true) ->
  within up (Tguess c) bound (init c).
Proof.
  intros Hg Hv. apply init_within. intros v Hin.
  apply list_elem_of_In in Hin. simpl in Hin.
  destruct Hin as [<-|Hin].
  - assert (not_nan (Tguess c) = true) by (apply fin_ord, Hg).
    assert (HH : le_dir up (Tguess c) (Ttop c) = true /\ le_dir up (Ttop c) bound = true)
      by (apply Hv, list_elem_of_In; simpl; tauto).
    split; [by apply le_dir_refl|].
    destruct HH as [H1 H2]. by apply (le_dir_trans up _ (Ttop c)).
  - apply Hv, list_elem_of_In. simpl. tauto.
Qed.

(** What one pass does to two fields that agree away from the far edges *)
Lemma travel_sweep n m k visited_ rest (T1 T2 T1' T2' : Field) :
  interior n m = visited_ ++ rest ->
  (forall i j, away n m (S k) i j -> get T1 i j = get T2 i j) ->
  (forall i j, away n m k i j -> (i, j) ∉ visited_ -> get T1 i j = get T2 i j) ->
  visited rest T1 T1' -> visited rest T2 T2' ->
  forall i j, away n m (S k) i j -> get T1' i j = get T2' i j.
Proof.
  revert visited_ T1 T2. induction rest as [|[i j] rest IH]; intros vis T1 T2 E Hnew Hold; simpl.
  - by intros -> ->.
  - intros (U1 & HR1 & HV1) (U2 & HR2 & HV2).
    destruct (interior_split n m vis (i, j) rest E) as [Hbef _].
    assert (Hnv : forall x, lexlt (i, j) x -> x ∉ vis).
    { intros x Hx Hin. apply Hbef in Hin. unfold lexlt in *. simpl in *. lia. }
    destruct HR1 as (a1 & b1 & c1 & d1 & Ha1 & Hb1 & Hc1 & Hd1 & Hij1 & Hf1).
    destruct HR2 as (a2 & b2 & c2 & d2 & Ha2 & Hb2 & Hc2 & Hd2 & Hij2 & Hf2).
    apply (IH (vis ++ [(i, j)]) U1 U2); try done.
    + by rewrite <- app_assoc.
    + intros i' j' Haw. destruct (decide ((i', j') = (i, j))) as [[= -> ->]|Hne].
      * rewrite Hij1, Hij2. destruct Haw as [Hi Hj].
        rewrite Hold in Ha1 by ((split; lia) || (apply Hnv; unfold lexlt; simpl; lia)).
        rewrite Hnew in Hb1 by (split; lia).
        rewrite Hold in Hc1 by ((split; lia) || (apply Hnv; unfold lexlt; simpl; lia)).
        rewrite Hnew in Hd1 by (split; lia).
        congruence.
      * rewrite Hf1, Hf2 by done. by apply Hnew.
    + intros i' j' Haw Hnin. rewrite not_elem_of_app in Hnin. destruct Hnin as [Hn1 Hn2].
      rewrite Hf1, Hf2 by (intros [= -> ->]; apply Hn2; by left).
      by apply Hold.
Qed.

Lemma travel_sweeps n m k0 k (T1 T2 T1' T2' : Field) :
  (forall i j, away n m k0 i j -> get T1 i j = get T2 i j) ->
  visited (concat (replicate k (interior n m))) T1 T1' ->
  visited (concat (replicate k (interior n m))) T2 T2' ->
  forall i j, away n m (k0 + k) i j -> get T1' i j = get T2' i j.
Proof.
  revert k0 T1 T2. induction k as [|k IH]; intros k0 T1 T2 H0.
  - simpl. intros -> -> i j Haw. apply H0. by rewrite Nat.add_0_r in Haw.
  - rewrite sweeps_S. intros HV1 HV2.
    apply visited_app_inv in HV1 as (U1 & HV1 & HV1').
    apply visited_app_inv in HV2 as (U2 & HV2 & HV2').
    intros i j Haw. apply (IH (S k0) U1 U2); try done.
    + apply (travel_sweep n m k0 [] (interior n m) T1 T2); try done.
      * intros i' j' [??]. apply H0. split; lia.
      * intros i' j' ? _. by apply H0.
    + destruct Haw. split; lia.
Qed.

(** X5: comparison.  Take two settings on grids of the same size whose
    guess and edge values all lie between two finite values with an exact
    four-fold average.  If every value of the first is at most the
    corresponding value of the second, then after the same number of sweeps
    every cell of the first field is at most the same cell of the second. *)
Theorem comparison_principle (c1 c2 : Config) (K : Z) (lo hi : float) :
  lenX c1 = lenX c2 -> steady lo -> steady hi ->
  (forall v, v ∈ [Tguess c1; Ttop c1; Tbottom c1; Tleft c1; Tright c1;
                  Tguess c2; Ttop c2; Tbottom c2; Tleft c2; Tright c2] ->
     (lo <=? v)%float = true /\ (v <=? hi)%float = true) ->
  (Tguess c1 <=? Tguess c2)%float = true -> (Ttop c1 <=? Ttop c2)%float = true ->
  (Tbottom c1 <=? Tbottom c2)%float = true -> (Tleft c1 <=? Tleft c2)%float = true ->
  (Tright c1 <=? Tright c2)%float = true ->
  exists T1 T2,
    solve (lenX c1) (lenY c1) K (init c1) = Some T1 /\
    solve (lenX c2) (lenY c2) K (init c2) = Some T2 /\
    forall i j x1 x2, get T1 i j = Some x1 -> get T2 i j = Some x2 ->
      (x1 <=? x2)%float = true.
Proof.
  intros E Hlo Hhi Hv Hg Ht Hb Hl Hr.
  destruct (solve_visited K (init c1) (shaped_init c1)) as (T1 & HS1 & _ & HV1).
  destruct (solve_visited K (init c2) (shaped_init c2)) as (T2 & HS2 & _ & HV2).
  exists T1, T2. split; [done|]. split; [done|].
  unfold lenY in *. rewrite <- E in HV2.
  change (along true T1 T2).
  apply (visited_along true lo hi (concat (replicate (Z.to_nat K) (interior (lenX c1) (lenX c1))))
           (init c1) (init c2) T1 T2); try done.
  - apply init_within. intros v Hin. apply Hv.
    apply list_elem_of_In in Hin. apply list_elem_of_In. simpl in *. tauto.
  - apply init_within. intros v Hin. apply Hv.
    apply list_elem_of_In in Hin. apply list_elem_of_In. simpl in *. tauto.
  - by apply (init_along true).
Qed.

Lemma comparison_principle_witness :
  lenX cooler = lenX reference /\ steady 0 /\ steady 100 /\
  (Tguess cooler <=? Tguess reference)%float = true /\
  (Ttop cooler <=? Ttop reference)%float = true /\
  (Tbottom cooler <=? Tbottom reference)%float = true /\
  (Tleft cooler <=? Tleft reference)%float = true /\
  (Tright cooler <=? Tright reference)%float = true /\
  exists T1 T2,
    solve 60 60 500 (init cooler) = Some T1 /\
    solve 60 60 500 (init reference) = Some T2 /\
    forall i j x1 x2, get T1 i j = Some x1 -> get T2 i j = Some x2 ->
      (x1 <=? x2)%float = true.
Proof.
  assert (Hv : forall v,
            v ∈ [Tguess cooler; Ttop cooler; Tbottom cooler; Tleft cooler; Tright cooler;
                 Tguess reference; Ttop reference; Tbottom reference; Tleft reference;
                 Tright reference] ->
            (0 <=? v)%float = true /\ (v <=? 100)%float = true).
  { intros v Hv. apply list_elem_of_In in Hv. simpl in Hv.
    destruct Hv as [<-|[<-|[<-|[<-|[<-|[<-|[<-|[<-|[<-|[<-|[]]]]]]]]]]]; split; reflexivity. }
  split; [reflexivity|]. split; [exact steady_0|]. split; [exact steady_100|].
  split; [reflexivity|]. split; [reflexivity|]. split; [reflexivity|].
  split; [reflexivity|]. split; [reflexivity|].
  exact (comparison_principle cooler reference 500 0 100 eq_refl steady_0 steady_100 Hv
           eq_refl eq_refl eq_refl eq_refl eq_refl).
Defined.

(** X6: the top and the right edge travel one cell per sweep.  Two
    settings that differ in the top and right values only yield, after [K]
    sweeps, the same value at every cell more than [K] cells away from the
    last row and from the last column: a pass reads the next row and the
    next column as the previous pass left them. *)
Theorem far_edges_travel (c1 c2 : Config) (K : Z) :
  lenX c1 = lenX c2 -> Tguess c1 = Tguess c2 ->
  Tbottom c1 = Tbottom c2 -> Tleft c1 = Tleft c2 ->
  exists T1 T2,
    solve (lenX c1) (lenY c1) K (init c1) = Some T1 /\
    solve (lenX c2) (lenY c2) K (init c2) = Some T2 /\
    forall i j, away (lenX c1) (lenY c1) (Z.to_nat K) i j -> get T1 i j = get T2 i j.
Proof.
  intros E Hg Hb Hl.
  destruct (solve_visited K (init c1) (shaped_init c1)) as (T1 & HS1 & _ & HV1).
  destruct (solve_visited K (init c2) (shaped_init c2)) as (T2 & HS2 & _ & HV2).
  exists T1, T2. split; [done|]. split; [done|].
  unfold lenY in *. rewrite <- E in HV2.
  apply (travel_sweeps _ _ 0 (Z.to_nat K) (init c1) (init c2)); try done.
  intros i j [Hi Hj]. rewrite !get_init, <- E, Hg, Hb, Hl.
  destruct (Nat.eqb_spec j (lenX c1 - 1)); [lia|].
  destruct (Nat.eqb_spec i (lenX c1 - 1)); [lia|]. done.
Qed.

Lemma far_edges_travel_witness :
  lenX reference = lenX other_far_edges /\ Tguess reference = Tguess other_far_edges /\
  Tbottom reference = Tbottom other_far_edges /\ Tleft reference = Tleft other_far_edges /\
  exists T1 T2,
    solve 60 60 20 (init reference) = Some T1 /\
    solve 60 60 20 (init other_far_edges) = Some T2 /\
    get T1 5 30 = get T2 5 30.
Proof.
  split; [reflexivity|]. split; [reflexivity|]. split; [reflexivity|].
  split; [reflexivity|].
  destruct (far_edges_travel reference other_far_edges 20 eq_refl eq_refl eq_refl eq_refl)
    as (T1 & T2 & H1 & H2 & H3).
  exists T1, T2. split; [exact H1|]. split; [exact H2|].
  apply H3. split; simpl; lia.
Defined.

(** X7: on a grid of any size, when the guess and a bound are finite
    values with an exact four-fold average and the four edge values lie
    between them, every cell after [K] sweeps lies at or beyond its initial
    value, and every cell after [K + 1] sweeps at or beyond its value after
    [K] sweeps. *)
Theorem sweeps_monotone (up : bool) (c : Config) (bound : float) (K : Z) :
  0 <= K -> steady (Tguess c) -> steady bound ->
  (forall v, v ∈ [Ttop c; Tbottom c; Tleft c; Tright c] ->
     le_dir up (Tguess c) v = true /\ le_dir up v bound = true) ->
  exists T T',
    solve (lenX c) (lenY c) K (init c) = Some T /\
    solve (lenX c) (lenY c) (K + 1) (init c) = Some T' /\
    along up (init c) T /\ along up T T'.
Proof.
  intros HK Hg Hb Hv. pose proof (guess_within up c bound Hg Hv) as HW.
  destruct (solve_visited K (init c) (shaped_init c)) as (T & HS & _ & HV).
  destruct (solve_visited (K + 1) (init c) (shaped_init c)) as (T' & HS' & _ & HV').
  exists T, T'. split; [done|]. split; [done|].
  replace (Z.to_nat (K + 1)) with (S (Z.to_nat K)) in HV' by lia.
  rewrite sweeps_S in HV'.
  destruct (visited_app_inv _ _ _ _ HV') as (T1 & HV1 & HV2).
  assert (H01 : along up (init c) T1).
  { apply (sweeps_from_init up bound c 1 T1 Hg Hb HW). by rewrite sweeps_1. }
  assert (HW1 : within up (Tguess c) bound T1)
    by (by apply (visited_within up _ _ _ _ _ Hg Hb HW HV1)).
  split.
  - by apply (sweeps_from_init up bound c (Z.to_nat K) T Hg Hb HW).
  - by apply (visited_along up _ _ _ _ _ _ _ Hg Hb HW HW1 H01 HV HV2).
Qed.

Lemma sweeps_monotone_witness :
  0 <= 40 /\ steady (Tguess reference) /\ steady 100 /\
  (forall v, v ∈ [Ttop reference; Tbottom reference; Tleft reference; Tright reference] ->
     le_dir true (Tguess reference) v = true /\ le_dir true v 100 = true) /\
  exists T T',
    solve 60 60 40 (init reference) = Some T /\
    solve 60 60 (40 + 1) (init reference) = Some T' /\
    along true (init reference) T /\ along true T T'.
Proof.
  assert (H : forall v, v ∈ [Ttop reference; Tbottom reference; Tleft reference;
                             Tright reference] ->
     le_dir true (Tguess reference) v = true /\ le_dir true v 100 = true).
  { intros v Hv. apply list_elem_of_In in Hv. simpl in Hv.
    destruct Hv as [<-|[<-|[<-|[<-|[]]]]]; split; reflexivity. }
  split; [lia|]. split; [exact steady_0|]. split; [exact steady_100|]. split; [exact H|].
  exact (sweeps_monotone true reference 100 40 ltac:(lia) steady_0 steady_100 H).
Defined.

(** ** The sample points on other grids *)

Lemma positions_sized c : positions c = positions (sized (lenX c)).
Proof. reflexivity. Qed.

Lemma sides_pass_elim check lo len n :
  sides_pass check lo len = true -> (lo <= n < lo + len)%nat ->
  exists p, positions (sized n) = Some p /\ check n p = true.
Proof.
  unfold sides_pass. rewrite forallb_forall. intros H Hn.
  assert (Hin : In n (seq lo len)) by (apply in_seq; lia).
  specialize (H n Hin). destruct (positions (sized n)) as [p|]; [|done].
  by exists p.
Qed.

Lemma interior_sides : sides_pass in_interior 12 989 = true.
Proof. vm_compute. reflexivity. Qed.

Lemma edge_sides : sides_pass on_edges 3 9 = true.
Proof. vm_compute. reflexivity. Qed.

Lemma grid_sides : sides_pass in_grid 2 10 = true.
Proof. vm_compute. reflexivity. Qed.

Lemma in_interior_spec n p :
  in_interior n p = true ->
  Forall (fun k => 1 <= k <= Z.of_nat n - 2) (coordinates p).
Proof.
  unfold in_interior. rewrite forallb_forall. intros H.
  apply Forall_forall. intros k Hk. apply list_elem_of_In in Hk.
  specialize (H k Hk). apply andb_true_iff in H as [H1 H2].
  apply Z.leb_le in H1. apply Z.ltb_lt in H2. lia.
Qed.

Lemma in_grid_spec n p :
  in_grid n p = true ->
  Forall (fun k => 0 <= k < Z.of_nat n) (coordinates p).
Proof.
  unfold in_grid. rewrite forallb_forall. intros H.
  apply Forall_forall. intros k Hk. apply list_elem_of_In in Hk.
  specialize (H k Hk). apply andb_true_iff in H as [H1 H2].
  apply Z.leb_le in H1. apply Z.ltb_lt in H2. lia.
Qed.

Lemma at_get_Z n m (T : Field) (y x : Z) :
  shaped n m T -> 0 <= y < Z.of_nat n -> 0 <= x < Z.of_nat m ->
  at_ T y x = get T (Z.to_nat y) (Z.to_nat x).
Proof.
  intros HT Hy Hx.
  rewrite <- (Z2Nat.id y) at 1 by lia. rewrite <- (Z2Nat.id x) at 1 by lia.
  apply (at_get n m); [done|lia..].
Qed.

Lemma coordinates_Forall (P : Z -> Prop) p :
  Forall P (coordinates p) ->
  (P (wormA_x p) /\ P (wormA_y p)) /\ (P (wormB_x p) /\ P (wormB_y p)) /\
  (P (wormC_x p) /\ P (wormC_y p)) /\ (P (wormD_x p) /\ P (wormD_y p)).
Proof.
  intros H. rewrite Forall_forall in H.
  repeat split; apply H, list_elem_of_In; simpl; tauto.
Qed.

Lemma probes_in_grid c :
  (2 <= lenX c <= 1000)%nat ->
  exists p, positions c = Some p /\
    Forall (fun k => 0 <= k < Z.of_nat (lenX c)) (coordinates p).
Proof.
  intros Hn. rewrite positions_sized.
  destruct (decide (lenX c < 12)%nat).
  - destruct (sides_pass_elim _ _ _ (lenX c) grid_sides) as (p & Hp & Hc); [lia|].
    exists p. split; [done|]. by apply in_grid_spec.
  - destruct (sides_pass_elim _ _ _ (lenX c) interior_sides) as (p & Hp & Hc); [lia|].
    exists p. split; [done|]. apply in_interior_spec in Hc.
    eapply Forall_impl; [exact Hc|]. simpl. lia.
Qed.

Lemma sample_in_grid n (T : Field) p :
  shaped n n T -> Forall (fun k => 0 <= k < Z.of_nat n) (coordinates p) ->
  exists a b c d,
    get T (Z.to_nat (wormA_y p)) (Z.to_nat (wormA_x p)) = Some a /\
    get T (Z.to_nat (wormB_y p)) (Z.to_nat (wormB_x p)) = Some b /\
    get T (Z.to_nat (wormC_y p)) (Z.to_nat (wormC_x p)) = Some c /\
    get T (Z.to_nat (wormD_y p)) (Z.to_nat (wormD_x p)) = Some d /\
    sample T p = Some [a; b; c; d].
Proof.
  intros HT HF. apply coordinates_Forall in HF as ([??] & [??] & [??] & [??]).
  destruct (get_is_Some T (Z.to_nat (wormA_y p)) (Z.to_nat (wormA_x p)) HT) as [a Ha]; [lia..|].
  destruct (get_is_Some T (Z.to_nat (wormB_y p)) (Z.to_nat (wormB_x p)) HT) as [b Hb]; [lia..|].
  destruct (get_is_Some T (Z.to_nat (wormC_y p)) (Z.to_nat (wormC_x p)) HT) as [c Hc]; [lia..|].
  destruct (get_is_Some T (Z.to_nat (wormD_y p)) (Z.to_nat (wormD_x p)) HT) as [d0 Hd]; [lia..|].
  exists a, b, c, d0. split_and!; try done.
  unfold sample. rewrite !(at_get_Z n n T) by done.
  by rewrite Ha, Hb, Hc, Hd.
Qed.

Lemma concentrations_in_grid c K :
  (2 <= lenX c <= 1000)%nat ->
  exists T p a b c' d,
    solve (lenX c) (lenY c) K (init c) = Some T /\ shaped (lenX c) (lenX c) T /\
    visited (concat (replicate (Z.to_nat K) (interior (lenX c) (lenY c)))) (init c) T /\
    positions c = Some p /\
    Forall (fun k => 0 <= k < Z.of_nat (lenX c)) (coordinates p) /\
    get T (Z.to_nat (wormA_y p)) (Z.to_nat (wormA_x p)) = Some a /\
    get T (Z.to_nat (wormB_y p)) (Z.to_nat (wormB_x p)) = Some b /\
    get T (Z.to_nat (wormC_y p)) (Z.to_nat (wormC_x p)) = Some c' /\
    get T (Z.to_nat (wormD_y p)) (Z.to_nat (wormD_x p)) = Some d /\
    concentrations c K = Some [a; b; c'; d].
Proof.
  intros Hn. destruct (probes_in_grid c Hn) as (p & Hp & HF).
  destruct (solve_visited K (init c) (shaped_init c)) as (T & HS & HT & HV).
  destruct (sample_in_grid (lenX c) T p HT HF) as (a & b & c' & d0 & Ha & Hb & Hc & Hd & Hsam).
  exists T, p, a, b, c', d0. split_and!; try done.
  unfold concentrations. rewrite Hp. simpl. rewrite HS. simpl. done.
Qed.

(** X8: on a grid of side 2 to 1000 the eight coordinates computed from
    [0.416] are indices of the grid, so the sampler never raises and never
    uses numpy's wrap-around of a negative index: the four samples are the
    cells [T[y][x]] of the relaxed field. *)
Theorem probes_never_wrap (c : Config) (K : Z) :
  (2 <= lenX c <= 1000)%nat ->
  exists T p a b c' d,
    solve (lenX c) (lenY c) K (init c) = Some T /\
    positions c = Some p /\
    Forall (fun k => 0 <= k < Z.of_nat (lenX c)) (coordinates p) /\
    get T (Z.to_nat (wormA_y p)) (Z.to_nat (wormA_x p)) = Some a /\
    get T (Z.to_nat (wormB_y p)) (Z.to_nat (wormB_x p)) = Some b /\
    get T (Z.to_nat (wormC_y p)) (Z.to_nat (wormC_x p)) = Some c' /\
    get T (Z.to_nat (wormD_y p)) (Z.to_nat (wormD_x p)) = Some d /\
    concentrations c K = Some [a; b; c'; d].
Proof.
  intros Hn.
  destruct (concentrations_in_grid c K Hn)
    as (T & p & a & b & c' & d0 & HS & _ & _ & Hp & HF & Ha & Hb & Hc & Hd & HC).
  exists T, p, a, b, c', d0. split_and!; done.
Qed.

Lemma probes_never_wrap_witness :
  (2 <= lenX small <= 1000)%nat /\
  exists a b c' d, concentrations small 2 = Some [a; b; c'; d].
Proof.
  assert (H : (2 <= lenX small <= 1000)%nat) by (simpl; lia).
  split; [exact H|].
  destruct (probes_never_wrap small 2 H) as (T & p & a & b & c' & d0 & _ & _ & _ & _ & _ & _ & _ & HC).
  exists a, b, c', d0. exact HC.
Defined.

(** X9: on a grid of side 12 to 1000 the four sample points are interior
    cells (every coordinate in [1 .. N-2]), so with no sweep the four
    samples are the guess. *)
Theorem probes_interior (c : Config) :
  (12 <= lenX c <= 1000)%nat ->
  exists p, positions c = Some p /\
    Forall (fun k => 1 <= k <= Z.of_nat (lenX c) - 2) (coordinates p) /\
    concentrations c 0 = Some [Tguess c; Tguess c; Tguess c; Tguess c].
Proof.
  intros Hn.
  destruct (sides_pass_elim _ _ _ (lenX c) interior_sides) as (p & Hp & Hc); [lia|].
  rewrite <- positions_sized in Hp. apply in_interior_spec in Hc.
  exists p. split; [done|]. split; [done|].
  unfold concentrations. rewrite Hp. simpl.
  change (solve (lenX c) (lenY c) 0 (init c)) with (Some (init c)). simpl.
  assert (HF : Forall (fun k => 0 <= k < Z.of_nat (lenX c)) (coordinates p)).
  { eapply Forall_impl; [exact Hc|]. simpl. lia. }
  pose proof (shaped_init c) as HI. unfold lenY in HI.
  destruct (sample_in_grid (lenX c) (init c) p HI HF)
    as (a & b & c' & d0 & Ha & Hb & Hc' & Hd & ->).
  apply coordinates_Forall in Hc as ([??] & [??] & [??] & [??]).
  rewrite init_interior in Ha, Hb, Hc', Hd by (apply elem_of_interior; unfold lenY; lia).
  congruence.
Qed.

Lemma probes_interior_witness :
  (12 <= lenX (sized 100) <= 1000)%nat /\
  concentrations (sized 100) 0 = Some [0; 0; 0; 0]%float.
Proof.
  assert (H : (12 <= lenX (sized 100) <= 1000)%nat) by (simpl; lia).
  split; [exact H|].
  destruct (probes_interior (sized 100) H) as (p & _ & _ & HC). exact HC.
Defined.

(** X10: on a grid of side 3 to 11 the four sample points lie on the
    edges, A on the left, B on the top, C on the right and D on the bottom
    one, away from the corners: whatever the number of sweeps, the samples
    are the left, top, right and bottom values. *)
Theorem probes_on_edges (c : Config) (K : Z) :
  (3 <= lenX c <= 11)%nat ->
  concentrations c K = Some [Tleft c; Ttop c; Tright c; Tbottom c].
Proof.
  intros Hn.
  destruct (concentrations_in_grid c K ltac:(lia))
    as (T & p & a & b & c' & d0 & _ & _ & HV & Hp & _ & Ha & Hb & Hc & Hd & ->).
  destruct (sides_pass_elim _ _ _ (lenX c) edge_sides) as (p' & Hp' & He); [lia|].
  rewrite <- positions_sized, Hp in Hp'. injection Hp' as <-.
  unfold on_edges in He. rewrite !andb_true_iff, forallb_forall in He.
  destruct He as [[[[EA EB] EC] ED] HF].
  apply Z.eqb_eq in EA, EB, EC, ED.
  assert (HI : forall k, k ∈ [wormA_y p; wormB_x p; wormC_y p; wormD_x p] ->
                 1 <= k <= Z.of_nat (lenX c) - 2).
  { intros k Hk. apply list_elem_of_In in Hk. specialize (HF k Hk).
    apply andb_true_iff in HF as [H1 H2]. apply Z.leb_le in H1. apply Z.ltb_lt in H2. lia. }
  pose proof (HI (wormA_y p) ltac:(apply list_elem_of_In; simpl; tauto)) as IA.
  pose proof (HI (wormB_x p) ltac:(apply list_elem_of_In; simpl; tauto)) as IB.
  pose proof (HI (wormC_y p) ltac:(apply list_elem_of_In; simpl; tauto)) as IC.
  pose proof (HI (wormD_x p) ltac:(apply list_elem_of_In; simpl; tauto)) as ID.
  assert (Hfr : forall i j, (i = 0 \/ i = lenX c - 1 \/ j = 0 \/ j = lenX c - 1)%nat ->
                  get T i j = get (init c) i j).
  { intros i j Hb'. apply (visited_frame _ _ _ _ _ HV).
    intros Hin. apply elem_of_sweeps, elem_of_interior in Hin. unfold lenY in Hin. lia. }
  rewrite Hfr, get_init in Ha, Hb, Hc, Hd by lia.
  rewrite EA in Ha. rewrite EB in Hb. rewrite EC in Hc. rewrite ED in Hd.
  destruct (Nat.ltb_spec (Z.to_nat (wormA_y p)) (lenX c)); [|lia].
  destruct (Nat.ltb_spec (Z.to_nat (wormB_x p)) (lenX c)); [|lia].
  destruct (Nat.ltb_spec (Z.to_nat (wormC_y p)) (lenX c)); [|lia].
  destruct (Nat.ltb_spec (Z.to_nat 0) (lenX c)); [|simpl in *; lia].
  destruct (Nat.ltb_spec (Z.to_nat (wormD_x p)) (lenX c)); [|lia].
  destruct (Nat.ltb_spec (Z.to_nat (Z.of_nat (lenX c) - 1)) (lenX c)); [|lia].
  simpl in Ha, Hb, Hc, Hd.
  destruct (Nat.eqb_spec (Z.to_nat (wormB_x p)) 0); [lia|].
  destruct (Nat.eqb_spec (Z.to_nat (wormB_x p)) (lenX c - 1)); [lia|].
  destruct (Nat.eqb_spec (Z.to_nat (wormD_x p)) 0); [lia|].
  destruct (Nat.eqb_spec (Z.to_nat (wormD_x p)) (lenX c - 1)); [lia|].
  destruct (Nat.eqb_spec (Z.to_nat (Z.of_nat (lenX c) - 1)) 0); [lia|].
  destruct (Nat.eqb_spec (Z.to_nat (Z.of_nat (lenX c) - 1)) (lenX c - 1)); [|lia].
  congruence.
Qed.

Lemma probes_on_edges_witness :
  (3 <= lenX small <= 11)%nat /\
  concentrations small 2 = Some [3; 1; 4; 2]%float.
Proof.
  assert (H : (3 <= lenX small <= 11)%nat) by (simpl; lia).
  split; [exact H|]. exact (probes_on_edges small 2 H).
Defined.

(** ** The driver off the beaten track *)

Lemma py_range_empty s0 e st :
  (0 < st /\ e < s0) \/ (st < 0 /\ s0 <= e + 1) -> py_range s0 (e + 1) st = Some [].
Proof.
  intros H. unfold py_range.
  destruct (Z.eqb_spec st 0) as [?|Hne]; [lia|].
  destruct (Z.ltb_spec 0 st) as [Hlt|Hge]; f_equal.
  - replace (Z.to_nat _) with 0%nat; [done|].
    assert ((e + 1 - s0 + st - 1) / st < 1); [|lia].
    apply Z.div_lt_upper_bound; lia.
  - replace (Z.to_nat _) with 0%nat; [done|].
    assert ((s0 - (e + 1) - st - 1) / - st < 1); [|lia].
    apply Z.div_lt_upper_bound; lia.
Qed.

Lemma py_range_down s0 e st :
  st < 0 ->
  exists ns, py_range s0 (e + 1) st = Some ns /\
    forall (k : nat) n, ns !! k = Some n <-> n = s0 + Z.of_nat k * st /\ e + 1 < n.
Proof.
  intros Hst. unfold py_range.
  destruct (Z.eqb_spec st 0) as [?|Hne]; [lia|].
  destruct (Z.ltb_spec 0 st) as [?|Hge]; [lia|].
  eexists. split; [done|]. intros k n. rewrite range_up_lookup.
  set (q := (s0 - (e + 1) - st - 1) / - st).
  assert (Hq : forall z, z < q <-> e + 1 < s0 + z * st).
  { intros z. unfold q. split; intros Hz.
    - assert (z + 1 <= (s0 - (e + 1) - st - 1) / - st) as H1 by lia.
      pose proof (Z.mul_div_le (s0 - (e + 1) - st - 1) (- st) ltac:(lia)). nia.
    - assert (z + 1 <= (s0 - (e + 1) - st - 1) / - st); [|lia].
      apply Z.div_le_lower_bound; [lia|]. nia. }
  split.
  - intros [Hk ->]. split; [done|]. apply Hq. lia.
  - intros [-> Hlt]. split; [|done]. apply Hq in Hlt. lia.
Qed.

Lemma py_range_NoDup s0 e st ns : py_range s0 e st = Some ns -> NoDup ns.
Proof.
  unfold py_range. destruct (Z.eqb_spec st 0) as [?|Hne]; [done|].
  intros H. apply NoDup_alt. intros i j x.
  destruct (0 <? st); injection H as <-; rewrite !range_up_lookup;
    intros [_ ->] [_ E]; nia.
Qed.

Lemma steps_rows plot c ns s :
  (2 <= lenX c <= 1000)%nat -> plots plot c ->
  exists rows, Forall2 (row_at c) ns rows /\
    for_each ns (step plot c) s
    = Some {| data := data s ++ rows; files := files s ++ (SaveFig <$> ns) |}.
Proof.
  intros Hn Hplot. revert s. induction ns as [|n ns IH]; intros s.
  - exists []. split; [constructor|]. simpl. rewrite !app_nil_r. by destruct s.
  - destruct (concentrations_in_grid c n Hn)
      as (T & p & a & b & c' & d0 & HS & _ & _ & Hp & _ & Ha & Hb & Hc & Hd & HC).
    assert (Hstep : step plot c s n
              = Some {| data := data s ++ [(n, [a; b; c'; d0])];
                        files := files s ++ [SaveFig n] |}).
    { unfold concentrations in HC. rewrite Hp in HC. simpl in HC.
      rewrite HS in HC. simpl in HC.
      unfold step. rewrite Hp. simpl. rewrite HS. simpl.
      rewrite (Hplot n T HS). simpl. by rewrite HC. }
    destruct (IH {| data := data s ++ [(n, [a; b; c'; d0])];
                    files := files s ++ [SaveFig n] |})
      as (rows & Hrows & Hfor).
    exists ((n, [a; b; c'; d0]) :: rows). split.
    + constructor; [|done]. exists T, p, a, b, c', d0. split_and!; done.
    + simpl. rewrite Hstep. simpl. rewrite Hfor. simpl. by rewrite <- !app_assoc.
Qed.

(** ** Image names *)

Lemma length_append s t :
  String.length (String.append s t) = (String.length s + String.length t)%nat.
Proof. induction s as [|a s IH]; simpl; [done|]. by rewrite IH. Qed.

Lemma append_inj_l s1 s2 t : String.append s1 t = String.append s2 t -> s1 = s2.
Proof.
  revert s2. induction s1 as [|a s1 IH]; intros [|b s2] H; simpl in *.
  - done.
  - apply (f_equal String.length) in H. simpl in H. rewrite length_append in H. lia.
  - apply (f_equal String.length) in H. simpl in H. rewrite length_append in H. lia.
  - injection H as -> H. f_equal. by apply IH.
Qed.

Lemma to_int_printable n : Z.to_int n <> Decimal.Pos Decimal.Nil /\ Z.to_int n <> Decimal.Neg Decimal.Nil.
Proof.
  destruct n as [|p|p]; simpl; split; try discriminate;
    intros [= H]; by apply DecimalPos.Unsigned.to_uint_nonnil in H.
Qed.

Lemma image_name_inj n1 n2 : image_name n1 = image_name n2 -> n1 = n2.
Proof.
  unfold image_name. intros H. simpl in H. injection H as H.
  apply append_inj_l in H.
  destruct (to_int_printable n1) as [P1 N1], (to_int_printable n2) as [P2 N2].
  pose proof (DecimalString.NilZero.isi _ P1 N1) as H1.
  pose proof (DecimalString.NilZero.isi _ P2 N2) as H2.
  rewrite H in H1. rewrite H1 in H2. injection H2 as H2.
  rewrite <- (DecimalZ.of_to n1), <- (DecimalZ.of_to n2). by rewrite H2.
Qed.

(** X12: when the range of the sweep is empty (a positive step with
    [end < start], or a negative step with [start <= end + 1]) the loop body
    never runs: no field is built, nothing is plotted, no image is saved,
    and the program writes an empty table, on a grid of any size. *)
Theorem empty_sweep (plot : Field -> option unit) (h : Hydrogel) (c : Config) :
  PrimFloat.eqb (pore_size h) 0 = false ->
  (0 < d c /\ end_ c < start c) \/ (d c < 0 /\ start c <= end_ c + 1) ->
  program plot h c = Some {| data := []; files := [SaveTxt []] |}.
Proof.
  intros Hp Hr. unfold program, de, py_div. rewrite Hp. simpl.
  by rewrite py_range_empty.
Qed.

Lemma empty_sweep_witness :
  PrimFloat.eqb (pore_size hydrogel) 0 = false /\
  ((0 < d reversed /\ end_ reversed < start reversed) \/
   (d reversed < 0 /\ start reversed <= end_ reversed + 1)) /\
  program plot_finite hydrogel reversed = Some {| data := []; files := [SaveTxt []] |}.
Proof.
  assert (H : (0 < d reversed /\ end_ reversed < start reversed) \/
              (d reversed < 0 /\ start reversed <= end_ reversed + 1))
    by (left; simpl; lia).
  split; [reflexivity|]. split; [exact H|].
  exact (empty_sweep plot_finite hydrogel reversed eq_refl H).
Defined.

(** X13: counting down.  With a negative step the counts are
    [start + k * d] as long as they exceed [end + 1]: the [+ 1] that makes
    [end] inclusive when counting up excludes both [end] and [end + 1] when
    counting down. *)
Theorem descending_counts (c : Config) :
  d c < 0 ->
  exists ns, py_range (start c) (end_ c + 1) (d c) = Some ns /\
    forall (k : nat) n,
      ns !! k = Some n <-> n = start c + Z.of_nat k * d c /\ end_ c + 1 < n.
Proof. apply py_range_down. Qed.

Lemma descending_counts_witness :
  d descending < 0 /\
  py_range (start descending) (end_ descending + 1) (d descending)
  = Some [100; 80; 60; 40; 20] /\
  exists ns, py_range (start descending) (end_ descending + 1) (d descending) = Some ns /\
    forall (k : nat) n,
      ns !! k = Some n <-> n = start descending + Z.of_nat k * d descending /\
                           end_ descending + 1 < n.
Proof.
  split; [reflexivity|]. split; [reflexivity|].
  exact (descending_counts descending eq_refl).
Defined.

(** X14: on a grid of side 2 to 1000, with a non-zero step, a pore size
    for which the constrictivity is defined and plotting calls that accept
    the field of every count, the program runs to its end: every count of
    the range contributes one row, the count next to the four cells
    [T[y][x]], at the sample points, of a field initialised afresh and swept
    that many times; one image is saved per count, and the table of all
    rows is written last. *)
Theorem program_runs (plot : Field -> option unit) (h : Hydrogel) (c : Config) :
  PrimFloat.eqb (pore_size h) 0 = false -> d c <> 0 -> (2 <= lenX c <= 1000)%nat ->
  plots plot c ->
  exists ns rows,
    py_range (start c) (end_ c + 1) (d c) = Some ns /\
    Forall2 (row_at c) ns rows /\
    program plot h c = Some {| data := rows; files := (SaveFig <$> ns) ++ [SaveTxt rows] |}.
Proof.
  intros Hp Hd Hn Hplot.
  assert (Hns : exists ns, py_range (start c) (end_ c + 1) (d c) = Some ns).
  { unfold py_range. destruct (Z.eqb_spec (d c) 0); [done|].
    destruct (0 <? d c); by eexists. }
  destruct Hns as (ns & Hns).
  destruct (steps_rows plot c ns {| data := []; files := [] |} Hn Hplot)
    as (rows & Hrows & Hfor).
  exists ns, rows. split; [done|]. split; [done|].
  unfold program, de, py_div. rewrite Hp. simpl. rewrite Hns. simpl.
  rewrite Hfor. simpl. done.
Qed.

Lemma program_runs_witness :
  PrimFloat.eqb (pore_size hydrogel) 0 = false /\ d descending <> 0 /\
  (2 <= lenX descending <= 1000)%nat /\ plots plot_finite descending /\
  exists rows,
    Forall2 (row_at descending) [100; 80; 60; 40; 20] rows /\
    program plot_finite hydrogel descending
    = Some {| data := rows;
              files := (SaveFig <$> [100; 80; 60; 40; 20]) ++ [SaveTxt rows] |}.
Proof.
  assert (Hd : d descending <> 0) by discriminate.
  assert (Hn : (2 <= lenX descending <= 1000)%nat) by (simpl; lia).
  split; [reflexivity|]. split; [exact Hd|]. split; [exact Hn|].
  split; [exact plots_descending|].
  destruct (program_runs plot_finite hydrogel descending eq_refl Hd Hn plots_descending)
    as (ns & rows & H1 & H2 & H3).
  change (py_range (start descending) (end_ descending + 1) (d descending))
    with (Some [100; 80; 60; 40; 20]) in H1.
  injection H1 as <-. exists rows. split; [exact H2|exact H3].
Defined.

(** X15: the images of a sweep have pairwise different names
    [diffusion.t<n>.jpg], so no image overwrites another. *)
Theorem images_distinct (c : Config) (ns : list Z) :
  py_range (start c) (end_ c + 1) (d c) = Some ns ->
  NoDup (image_name <$> ns).
Proof.
  intros H. apply NoDup_fmap_2; [|by eapply py_range_NoDup].
  intros n1 n2. apply image_name_inj.
Qed.

Lemma images_distinct_witness :
  py_range (start descending) (end_ descending + 1) (d descending)
  = Some [100; 80; 60; 40; 20] /\
  NoDup (image_name <$> [100; 80; 60; 40; 20]).
Proof.
  split; [reflexivity|].
  exact (images_distinct descending [100; 80; 60; 40; 20] eq_refl).
Defined.
